(** * stargazed: a shallow embedding of [index.js]

    The program validates a loosely typed options object, walks the
    paginated "starred repositories" endpoint, groups the items by
    language and renders the grouping through a template into README.md.

    The embedding keeps the shape of the source: JavaScript strings are
    sequences of UTF-16 code units, JavaScript values are a tagged union,
    the module-level [options] object is a finite map threaded through the
    validator, the recursive [loop] is a fuelled recursion that records the
    requests it issues, and [process.exit] ends a run. *)

From Stdlib Require Import ZArith NArith Ascii Lia.
From stdpp Require Import gmap list fin_maps strings pretty.

Set Default Proof Using "Type".
#[local] Set Warnings "-register-all".

(* ===================================================================== *)
(** * Strings                                                             *)
(* ===================================================================== *)

(** A JavaScript string is the sequence of its UTF-16 code units. *)
Abbreviation jsstring := (list N).

(** An ASCII literal as a JavaScript string. *)
Definition js (s : string) : jsstring :=
  (λ a, N_of_ascii a) <$> String.list_ascii_of_string s.

(** [Number.prototype.toString] of a small non-negative integer. *)
Definition decimal (n : N) : jsstring := js (pretty n).

(** [s.startsWith(pat)], the test at one position of a substring search. *)
Fixpoint starts_with (s pat : jsstring) {struct pat} : bool :=
  match pat, s with
  | [], _ => true
  | _ :: _, [] => false
  | p :: pat', c :: s' => (c =? p)%N && starts_with s' pat'
  end.

(** [String.prototype.includes]: does [pat] occur in [s] as a substring. *)
Fixpoint includes (s pat : jsstring) : bool :=
  starts_with s pat ||
  match s with
  | [] => false
  | _ :: s' => includes s' pat
  end.

(** [s.replace(pat, rep)] with a string pattern: only the first occurrence
    is replaced. *)
Fixpoint replace_first (pat rep s : jsstring) : jsstring :=
  if starts_with s pat then rep ++ drop (length pat) s
  else match s with
       | [] => []
       | c :: s' => c :: replace_first pat rep s'
       end.

(** [s.replace(new RegExp(key, 'g'), value)] for a [key] that is one
    ordinary character: with the global flag every occurrence of that
    character is replaced. *)
Fixpoint replace_global (key : N) (value s : jsstring) : jsstring :=
  match s with
  | [] => []
  | c :: s' =>
      if (c =? key)%N then value ++ replace_global key value s'
      else c :: replace_global key value s'
  end.

(** The code units that [trim] strips: ECMAScript WhiteSpace and
    LineTerminator. *)
Definition white_space : list N :=
  [9; 10; 11; 12; 13; 32; 160; 5760;
   8192; 8193; 8194; 8195; 8196; 8197; 8198; 8199; 8200; 8201; 8202;
   8232; 8233; 8239; 8287; 12288; 65279]%N.

Definition is_white_space (c : N) : bool := bool_decide (c ∈ white_space).

Fixpoint trim_start (s : jsstring) : jsstring :=
  match s with
  | [] => []
  | c :: s' => if is_white_space c then trim_start s' else s
  end.

Definition trim_end (s : jsstring) : jsstring :=
  reverse (trim_start (reverse s)).

(** [String.prototype.trim] (native, so the polyfill of the source is never
    installed; it strips the same characters). *)
Definition trim (s : jsstring) : jsstring := trim_end (trim_start s).

(** [arr.join(sep)] on strings. *)
Fixpoint join (sep : jsstring) (parts : list jsstring) : jsstring :=
  match parts with
  | [] => []
  | [p] => p
  | p :: rest => p ++ sep ++ join sep rest
  end.

(* ===================================================================== *)
(** * Values                                                              *)
(* ===================================================================== *)

(** The values an options object can carry. A number is kept as its
    canonical decimal text, which is all the program observes of it
    (truthiness and interpolation); objects are plain data objects. *)
Inductive value :=
  | VUndefined
  | VNull
  | VBool (b : bool)
  | VNumber (text : jsstring)
  | VString (s : jsstring)
  | VObject (props : gmap jsstring value)
  | VArray (elems : list value).

(** ToBoolean. *)
Definition truthy (v : value) : bool :=
  match v with
  | VUndefined | VNull => false
  | VBool b => b
  | VNumber text =>
      negb (bool_decide (text = js "0") || bool_decide (text = js "NaN"))
  | VString s => negb (bool_decide (s = []))
  | VObject _ | VArray _ => true
  end.

(** [a || b]. *)
Definition js_or (a b : value) : value := if truthy a then a else b.

(** ToString, as a template literal applies it; [None] when the
    conversion throws. A plain object prints through the inherited
    [Object.prototype.toString]; an own property [toString] hides it, and
    since no value of an options object is a function the conversion then
    finds nothing to call ([valueOf] returns the object itself) and throws
    a [TypeError]. An array joins the conversions of its elements, with
    [undefined] and [null] as the empty string. *)
Fixpoint to_string (v : value) : option jsstring :=
  match v with
  | VUndefined => Some (js "undefined")
  | VNull => Some (js "null")
  | VBool true => Some (js "true")
  | VBool false => Some (js "false")
  | VNumber text => Some text
  | VString s => Some s
  | VObject props =>
      if bool_decide (is_Some (props !! js "toString")) then None
      else Some (js "[object Object]")
  | VArray elems =>
      join (js ",") <$>
        (fix elements (l : list value) : option (list jsstring) :=
           match l with
           | [] => Some []
           | e :: l' =>
               match match e with
                     | VUndefined | VNull => Some []
                     | _ => to_string e
                     end, elements l' with
               | Some s, Some parts => Some (s :: parts)
               | _, _ => None
               end
           end) elems
  end.

(** [validate.io-object]: a non-null, non-array object. *)
Definition isObject (v : value) : bool :=
  match v with VObject _ => true | _ => false end.

(** [validate.io-string-primitive]: [typeof v === 'string']. *)
Definition isString (v : value) : bool :=
  match v with VString _ => true | _ => false end.

(** [validate.io-boolean-primitive]: [typeof v === 'boolean']. *)
Definition isBoolean (v : value) : bool :=
  match v with VBool _ => true | _ => false end.

(** [Object.prototype.hasOwnProperty.call(o, key)]. *)
Definition hasOwnProperty (o : value) (key : jsstring) : bool :=
  match o with
  | VObject props => bool_decide (is_Some (props !! key))
  | _ => false
  end.

(** [o.key] for a key that [Object.prototype] does not define. *)
Definition get (o : value) (key : jsstring) : value :=
  match o with
  | VObject props => default VUndefined (props !! key)
  | _ => VUndefined
  end.

(** Errors: the [TypeError]s the program creates itself, and errors raised
    by a collaborator (the HTTP client, the file system, the template
    engine), kept as the text they print. *)
Inductive error :=
  | TypeError (message : jsstring)
  | HostError (text : jsstring).

Definition error_to_string (e : error) : jsstring :=
  match e with
  | TypeError message => js "TypeError: " ++ message
  | HostError text => text
  end.

(** The error a conversion to a string throws when it finds nothing to
    call. *)
Definition cannot_convert : error :=
  TypeError (js "Cannot convert object to primitive value").

(* ===================================================================== *)
(** * The options validator                                               *)
(* ===================================================================== *)

(** The module-level [const options = {}]: a mutable object shared by all
    invocations, here the state threaded through [validate]. *)
Abbreviation options := (gmap jsstring value).

(** [options.key], as destructuring reads it: [undefined] when absent. *)
Definition read (st : options) (key : jsstring) : value :=
  default VUndefined (st !! key).

(** A validation step transforms [options] and may return an error. *)
Definition Validation : Type := options → options * option error.

Definition pass : Validation := λ st, (st, None).

(** Sequencing with the early [return] of the source. *)
Definition and_then (c1 c2 : Validation) : Validation :=
  λ st, match c1 st with
        | (st', None) => c2 st'
        | (st', Some e) => (st', Some e)
        end.

Notation "c1 ;;; c2" := (and_then c1 c2)
  (at level 100, c2 at level 200, right associativity).

(** [_options.long || _options.short]. *)
Definition alias (_options : value) (long short : jsstring) : value :=
  js_or (get _options long) (get _options short).

(** One block of [validate]: when either alias is an own property, the
    canonical field is assigned first and type-checked afterwards. *)
Definition check_option (_options : value) (long short : jsstring)
    (is_ok : value → bool) (message : jsstring) : Validation :=
  λ st,
    if hasOwnProperty _options long || hasOwnProperty _options short then
      let st' := <[long := alias _options long short]> st in
      if is_ok (read st' long) then (st', None)
      else (st', Some (TypeError message))
    else (st, None).

(** The message of the first [TypeError], whose template literal converts
    the input to a string: [None] when that conversion throws. *)
Definition not_an_object (_options : value) : option jsstring :=
  text ← to_string _options;
  Some (js "invalid input argument. Options argument must be an object. Value: `"
        ++ text ++ js "`.").

(** How a call of [validate] ends: it returns [null] or an error, or it
    throws. *)
Inductive verdict :=
  | Returns (result : option error)
  | Throws (e : error).

(** A validation that runs to its [return]. *)
Definition returning (c : Validation) (st : options) : options * verdict :=
  ((c st).1, Returns (c st).2).

(** [validate]: an input that is not an object is answered with the first
    [TypeError], unless building its message throws; an object goes
    through the seven blocks, which stop at the first error. *)
Definition validate (_options : value) : options → options * verdict :=
  if negb (isObject _options) then
    λ st, match not_an_object _options with
          | Some message => (st, Returns (Some (TypeError message)))
          | None => (st, Throws cannot_convert)
          end
  else
    returning
      (check_option _options (js "username") (js "u") isString
         (js "invalid option. Username must be a string primitive.") ;;;
       check_option _options (js "token") (js "t") isString
         (js "invalid option. Token must be a string primitive.") ;;;
       check_option _options (js "repo") (js "r") isString
         (js "invalid option. Repo name must be a string primitive.") ;;;
       check_option _options (js "message") (js "m") isString
         (js "invalid option. Commit message must be a string primitive.") ;;;
       check_option _options (js "sort") (js "s") isBoolean
         (js "invalid option. Sort option must be a boolean primitive.") ;;;
       check_option _options (js "version") (js "v") isBoolean
         (js "invalid option. Version option must be a boolean primitive.") ;;;
       check_option _options (js "help") (js "h") isBoolean
         (js "invalid option. Help option must be a boolean primitive.") ;;;
       pass).

(** The seven blocks of [validate] as a table: long alias (also the
    canonical field), short alias, type test and message. *)
Record option_spec := OptionSpec {
  long_name : jsstring;
  short_name : jsstring;
  type_test : value → bool;
  type_message : jsstring
}.

Definition recognized : list option_spec :=
  [ OptionSpec (js "username") (js "u") isString
      (js "invalid option. Username must be a string primitive.");
    OptionSpec (js "token") (js "t") isString
      (js "invalid option. Token must be a string primitive.");
    OptionSpec (js "repo") (js "r") isString
      (js "invalid option. Repo name must be a string primitive.");
    OptionSpec (js "message") (js "m") isString
      (js "invalid option. Commit message must be a string primitive.");
    OptionSpec (js "sort") (js "s") isBoolean
      (js "invalid option. Sort option must be a boolean primitive.");
    OptionSpec (js "version") (js "v") isBoolean
      (js "invalid option. Version option must be a boolean primitive.");
    OptionSpec (js "help") (js "h") isBoolean
      (js "invalid option. Help option must be a boolean primitive.") ].

Definition check_spec (_options : value) (f : option_spec) : Validation :=
  check_option _options (long_name f) (short_name f) (type_test f)
    (type_message f).

(** [console.error] of the cross mark and the message, then
    [process.exit(1)]: what a run that ends in [flashError] shows. *)
Definition flash_text (message : jsstring) : jsstring :=
  [10006; 32]%N ++ message.

(* ===================================================================== *)
(** * Escaping                                                            *)
(* ===================================================================== *)

(** [htmlEscapeTable], in the order [Object.entries] lists it: the keys are
    the one-character patterns [>] and [<]. *)
Definition htmlEscapeTable : list (N * jsstring) :=
  [ (62%N, js "&gt;"); (60%N, js "&lt;") ].

(** [String.prototype.htmlEscape]: every table entry in turn rewrites the
    running string with a global regular-expression replace. *)
Definition htmlEscape (this : jsstring) : jsstring :=
  fold_left (λ escStr entry, replace_global entry.1 entry.2 escStr)
    htmlEscapeTable this.

(* ===================================================================== *)
(** * The paginated fetcher                                               *)
(* ===================================================================== *)

(** One starred repository, with the four fields the program reads; a
    [null] field of the response is [None]. *)
Record item := Item {
  name : jsstring;
  description : option jsstring;
  html_url : jsstring;
  language : option jsstring
}.

(** What the program reads of a response: [body] and [headers.link]. *)
Record response := Response {
  body : list item;
  link : option jsstring
}.

(** The settled promise of [ghGot(url, _options)]. *)
Inductive fetched :=
  | Fulfilled (r : response)
  | Failed (e : error).

(** [`users/${username}/starred?&per_page=100&page=${page}`], where
    [username] is the text the template literal makes of the user name;
    the caller of the loop does that conversion, which can throw. *)
Definition starred_url (username : jsstring) (page : N) : jsstring :=
  js "users/" ++ username ++ js "/starred?&per_page=100&page="
  ++ decimal page.

(** [headers.link && headers.link.includes('next')]. *)
Definition has_next (link : option jsstring) : bool :=
  match link with
  | Some l => truthy (VString l) && includes l (js "next")
  | None => false
  end.

(** How [loop] ends: with the accumulated list, in [flashError], or still
    waiting for a next page when the fuel of the model runs out. *)
Inductive loop_result :=
  | Listed (list : list item)
  | Flashed (stderr : jsstring)
  | Suspended.

(** The URLs requested so far, oldest first. *)
Abbreviation trace := (list jsstring).

(** The recursive [loop] closure; [page] and [list] are the variables it
    captures and updates. The first component is the sequence of URLs
    requested. *)
Fixpoint loop (fuel : nat) (ghGot : jsstring → value → fetched)
    (username : jsstring) (_options : value) (page : N) (list : list item)
    : trace * loop_result :=
  match fuel with
  | O => ([], Suspended)
  | S fuel' =>
      let url := starred_url username page in
      match ghGot url _options with
      | Failed err => ([url], Flashed (flash_text (error_to_string err)))
      | Fulfilled r =>
          let list := list ++ body r in
          if has_next (link r) then
            let rest := loop fuel' ghGot username _options (page + 1) list in
            (url :: rest.1, rest.2)
          else ([url], Listed list)
      end
  end.

(* ===================================================================== *)
(** * The aggregator                                                      *)
(* ===================================================================== *)

(** A row of the grouping: [[name, html_url, description]]. *)
Abbreviation triple := (jsstring * jsstring * jsstring)%type.

(** The [stargazed] object: its own properties in creation order. *)
Abbreviation grouping := (list (jsstring * list triple)).

(** The property names every object literal inherits from
    [Object.prototype]; none of their values has a [push] method. *)
Definition Object_prototype : list jsstring :=
  [ js "constructor"; js "__defineGetter__"; js "__defineSetter__";
    js "hasOwnProperty"; js "__lookupGetter__"; js "__lookupSetter__";
    js "isPrototypeOf"; js "propertyIsEnumerable"; js "toString";
    js "valueOf"; js "__proto__"; js "toLocaleString" ].

Fixpoint own_get (o : grouping) (key : jsstring) : option (list triple) :=
  match o with
  | [] => None
  | (k, v) :: o' => if decide (k = key) then Some v else own_get o' key
  end.

(** Assignment to an own property: in place when it exists, appended as
    the newest property otherwise. *)
Fixpoint own_set (o : grouping) (key : jsstring) (v : list triple)
    : grouping :=
  match o with
  | [] => [(key, v)]
  | (k, v0) :: o' =>
      if decide (k = key) then (k, v) :: o' else (k, v0) :: own_set o' key v
  end.

(** [key in o]: own properties and the inherited ones. *)
Definition js_in (key : jsstring) (o : grouping) : bool :=
  bool_decide (is_Some (own_get o key)) || bool_decide (key ∈ Object_prototype).

(** [field || fallback] on an optional string. *)
Definition or_string (field : option jsstring) (fallback : jsstring)
    : jsstring :=
  match field with
  | Some s => if truthy (VString s) then s else fallback
  | None => fallback
  end.

(** The description as the callback rewrites it before trimming. *)
Definition escape_description (description : option jsstring) : jsstring :=
  match description with
  | Some d =>
      if truthy (VString d) then replace_first [10%N] [] (htmlEscape d)
      else []
  | None => []
  end.

(** The row the callback pushes for an item. *)
Definition row (it : item) : triple :=
  (name it, html_url it, trim (escape_description (description it))).

(** The callback of [responseBody.map]: it updates [stargazed], or throws
    when [stargazed[language]] resolves to an inherited property, which
    has no [push]. *)
Definition aggregate_item (stargazed : grouping) (it : item)
    : error + grouping :=
  let language := or_string (language it) (js "Others") in
  let stargazed :=
    if js_in language stargazed then stargazed
    else own_set stargazed language [] in
  match own_get stargazed language with
  | Some bucket => inr (own_set stargazed language (bucket ++ [row it]))
  | None => inl (TypeError (js "stargazed[language].push is not a function"))
  end.

(** [responseBody.map(callback)], item by item. *)
Fixpoint aggregate (stargazed : grouping) (responseBody : list item)
    : error + grouping :=
  match responseBody with
  | [] => inr stargazed
  | it :: rest =>
      match aggregate_item stargazed it with
      | inl e => inl e
      | inr stargazed' => aggregate stargazed' rest
      end
  end.

(** ** [Object.keys] *)

Definition digit (c : N) : option N :=
  if (48 <=? c)%N && (c <=? 57)%N then Some (c - 48)%N else None.

Fixpoint digits_value (acc : N) (s : jsstring) : option N :=
  match s with
  | [] => Some acc
  | c :: s' => d ← digit c; digits_value (10 * acc + d)%N s'
  end.

(** An array index is a canonical decimal below [2^32 - 1]. *)
Definition array_index (key : jsstring) : option N :=
  match key with
  | [] => None
  | [48%N] => Some 0%N
  | 48%N :: _ => None
  | _ => n ← digits_value 0 key;
         if (n <? 4294967295)%N then Some n else None
  end.

Fixpoint insert_index (e : N * jsstring) (l : list (N * jsstring))
    : list (N * jsstring) :=
  match l with
  | [] => [e]
  | e' :: l' => if (e.1 <? e'.1)%N then e :: l else e' :: insert_index e l'
  end.

(** [Object.keys(o)]: array-index keys in ascending order, then the other
    keys in creation order. *)
Definition Object_keys (o : grouping) : list jsstring :=
  let keys := o.*1 in
  let indexed := omap (λ k, (λ n, (n, k)) <$> array_index k) keys in
  (foldr insert_index [] indexed).*2
  ++ filter (λ k, array_index k = None) keys.

(* ===================================================================== *)
(** * The pipeline                                                        *)
(* ===================================================================== *)

(** The object bound into the template. *)
Record context := Context {
  languages : list jsstring;
  username : value;
  stargazed : grouping
}.

(** The collaborators of a run: the HTTP client, the template file, the
    template engine, lodash's [unescape] and the write of README.md. *)
Record world := World {
  ghGot : jsstring → value → fetched;
  readFile_template : error + jsstring;
  ejs_render : jsstring → context → error + jsstring;
  unescape : jsstring → jsstring;
  writeFile_README : jsstring → option error
}.

(** How a run ends: the exported function returns, [flashError] prints and
    exits the process, the promise rejects with a thrown error, or the
    fetch loop is still running. *)
Inductive completion :=
  | Returned
  | Exited (stderr : jsstring) (code : Z)
  | Rejected (e : error)
  | Running.

(** What a run shows: the requests sent, the text written to README.md if
    any, and how it ended. *)
Record outcome := Outcome {
  requests : list jsstring;
  readme : option jsstring;
  finish : completion
}.

Definition flashError (message : jsstring) : completion :=
  Exited (flash_text message) 1.

(** A step of the run either ends it or hands on a value. *)
Abbreviation step A := (completion + A)%type.

(** [getReadmeTemplate]: the template, or [flashError] when it cannot be
    read. *)
Definition getReadmeTemplate (w : world) : step jsstring :=
  match readFile_template w with
  | inl err => inl (flashError (error_to_string err))
  | inr template => inr template
  end.

(** [buildReadmeContent]: the template rendered with the context; an error
    thrown by the engine rejects the promise. *)
Definition buildReadmeContent (w : world) (ctx : context) : step jsstring :=
  match getReadmeTemplate w with
  | inl ended => inl ended
  | inr template =>
      match ejs_render w template ctx with
      | inl e => inl (Rejected e)
      | inr text => inr text
      end
  end.

(** [writeReadmeContent]: the unescaped text written to README.md, or
    [flashError] when the write fails. *)
Definition writeReadmeContent (w : world) (readmeContent : jsstring)
    : step jsstring :=
  let text := unescape w readmeContent in
  match writeFile_README w text with
  | Some err => inl (flashError (error_to_string err))
  | None => inr text
  end.

(** The exported function: the module-level options before the call go in,
    the options after it and the outcome come out. An error thrown by
    [validate] rejects the promise, an error it returns goes to
    [flashError]. The URL template of [loop] converts the user name to
    text at every round, always with the same result: the conversion is
    done once here, and when it throws, inside the asynchronous [loop],
    the promise rejects before any request. *)
Definition module_exports (w : world) (fuel : nat) (_options : value)
    (st : options) : options * outcome :=
  match validate _options st with
  | (st, Throws e) => (st, Outcome [] None (Rejected e))
  | (st, Returns (Some err)) =>
      (st, Outcome [] None (flashError (error_to_string err)))
  | (st, Returns None) =>
      let username := read st (js "username") in
      let sort := read st (js "sort") in
      let help := read st (js "help") in
      let version := read st (js "version") in
      let token := read st (js "token") in
      let repo := read st (js "repo") in
      if truthy help then (st, Outcome [] None Returned)
      else if truthy version then (st, Outcome [] None Returned)
      else if negb (truthy username) then
        (st, Outcome [] None
               (flashError (js "Error! username is a required field.")))
      else if truthy repo && negb (truthy token) then
        (st, Outcome [] None
               (flashError
                  (js "Error: creating repository needs token. Set --token")))
      else
        match to_string username with
        | None => (st, Outcome [] None (Rejected cannot_convert))
        | Some user =>
            let fetched := loop fuel (ghGot w) user _options 1 [] in
            match fetched.2 with
            | Flashed stderr =>
                (st, Outcome fetched.1 None (Exited stderr 1))
            | Suspended => (st, Outcome fetched.1 None Running)
            | Listed responseBody =>
                match aggregate [] responseBody with
                | inl e => (st, Outcome fetched.1 None (Rejected e))
                | inr stargazed =>
                    let languages := Object_keys stargazed in
                    match buildReadmeContent w
                            (Context languages username stargazed) with
                    | inl ended => (st, Outcome fetched.1 None ended)
                    | inr readmeContent =>
                        match writeReadmeContent w readmeContent with
                        | inl ended => (st, Outcome fetched.1 None ended)
                        | inr text =>
                            (st, Outcome fetched.1 (Some text) Returned)
                        end
                    end
                end
            end
        end
  end.

(* ===================================================================== *)
(** * The specification's wording, for comparison                         *)
(* ===================================================================== *)

(** The escaping as the specification words it: only the first [>] and
    the first [<] are replaced. *)
Definition spec_escape_first_occurrences (s : jsstring) : jsstring :=
  replace_first [60%N] (js "&lt;") (replace_first [62%N] (js "&gt;") s).

(** The escaping of one code unit when every occurrence is escaped. *)
Definition escape_unit (c : N) : jsstring :=
  if (c =? 60)%N then js "&lt;"
  else if (c =? 62)%N then js "&gt;"
  else [c].

(** A pagination link header as the specification reads it: a list of
    link values, each a target with a relation name, printed as
    [<target>; rel="name"] and separated by a comma and a space. *)
Record link_value := LinkValue {
  target : jsstring;
  rel : jsstring
}.

Definition print_link_value (l : link_value) : jsstring :=
  js "<" ++ target l ++ js ">; rel=" ++ [34%N] ++ rel l ++ [34%N].

Definition print_link (ls : list link_value) : jsstring :=
  join (js ", ") (print_link_value <$> ls).

(** A header is well formed when it is the text of some non-empty list of
    link values. *)
Definition spec_well_formed_link (s : jsstring) : Prop :=
  ∃ ls, ls ≠ [] ∧ s = print_link ls.

(** A response advertises a next page when its header is the text of link
    values one of which has the relation [next]. *)
Definition spec_advertises_next (link : option jsstring) : Prop :=
  ∃ ls t, link = Some (print_link ls) ∧ LinkValue t (js "next") ∈ ls.

(** ** Notions the statements use *)

(** The language an item is filed under. *)
Definition language_key (it : item) : jsstring :=
  or_string (language it) (js "Others").

(** The rows filed under a key, [[]] when the key is not an own property. *)
Definition bucket (g : grouping) (key : jsstring) : list triple :=
  default [] (own_get g key).

(** The number of rows over all languages. *)
Definition total_rows (g : grouping) : nat :=
  sum_list (length <$> g.*2).

(** The validator's blocks run in table order. *)
Definition chain (_options : value) (fs : list option_spec) : Validation :=
  foldr and_then pass (check_spec _options <$> fs).

(** Is either alias of an option an own property of the input. *)
Definition present (_options : value) (f : option_spec) : bool :=
  hasOwnProperty _options (long_name f)
  || hasOwnProperty _options (short_name f).

(* ===================================================================== *)
(** * Concrete inputs                                                     *)
(* ===================================================================== *)

(** An object literal. *)
Definition object_literal (props : list (string * value)) : value :=
  VObject (list_to_map (prod_map js id <$> props)).

(** The description of the example: two spaces, the script element, a
    newline, [text] and two spaces. *)
Definition script_description : jsstring :=
  js "  <script>bad</script>" ++ [10%N] ++ js "text  ".

(** A mock endpoint for the user [octocat]: pages 1 to 3 carry 100 items
    and a header with the relations [next] and [last], page 4 carries one
    item and a header with [prev] and [first]; any other request fails. *)
Definition mock_item (n : nat) : item :=
  Item (js "repo" ++ decimal (N.of_nat n)) None
    (js "https://github.com/octocat/repo" ++ decimal (N.of_nat n))
    (Some (js "JavaScript")).

Definition mock_page (first count : nat) : list item :=
  mock_item <$> seq first count.

Definition mock_target (page : N) : jsstring :=
  js "https://api.github.com/user/583231/starred?per_page=100&page="
  ++ decimal page.

Definition mock_link_more (page : N) : option jsstring :=
  Some (print_link [ LinkValue (mock_target (page + 1)) (js "next");
                     LinkValue (mock_target 4) (js "last") ]).

Definition mock_link_done : option jsstring :=
  Some (print_link [ LinkValue (mock_target 3) (js "prev");
                     LinkValue (mock_target 1) (js "first") ]).

Definition octocat : value := VString (js "octocat").

Definition mock_ghGot (url : jsstring) (_options : value) : fetched :=
  if decide (url = starred_url (js "octocat") 1) then
    Fulfilled (Response (mock_page 1 100) (mock_link_more 1))
  else if decide (url = starred_url (js "octocat") 2) then
    Fulfilled (Response (mock_page 101 100) (mock_link_more 2))
  else if decide (url = starred_url (js "octocat") 3) then
    Fulfilled (Response (mock_page 201 100) (mock_link_more 3))
  else if decide (url = starred_url (js "octocat") 4) then
    Fulfilled (Response (mock_page 301 1) mock_link_done)
  else Failed (HostError (js "HTTPError: Response code 404 (Not Found)")).

(** A header without a target: not the text of any list of link values,
    yet it contains the letters [next]. *)
Definition malformed_link : jsstring :=
  js "rel=" ++ [34%N] ++ js "next" ++ [34%N].

Definition malformed_ghGot (url : jsstring) (_options : value) : fetched :=
  if decide (url = starred_url (js "octocat") 1) then
    Fulfilled (Response (mock_page 1 2) (Some malformed_link))
  else Fulfilled (Response [] None).

(** The same stars behind a host whose name contains the letters [next]:
    pages 1 to 3 advertise the relations [next] and [last], the header of
    page 4 has the relations [prev] and [first] only, and a request for a
    page after the fourth is answered with an empty page and no header. *)
Definition hosted_target (page : N) : jsstring :=
  js "https://git.nextcorp.example/api/v3/user/583231/starred?per_page=100&page="
  ++ decimal page.

Definition hosted_link_more (page : N) : option jsstring :=
  Some (print_link [ LinkValue (hosted_target (page + 1)) (js "next");
                     LinkValue (hosted_target 4) (js "last") ]).

Definition hosted_link_done : jsstring :=
  print_link [ LinkValue (hosted_target 3) (js "prev");
               LinkValue (hosted_target 1) (js "first") ].

Definition hosted_ghGot (url : jsstring) (_options : value) : fetched :=
  if decide (url = starred_url (js "octocat") 1) then
    Fulfilled (Response (mock_page 1 100) (hosted_link_more 1))
  else if decide (url = starred_url (js "octocat") 2) then
    Fulfilled (Response (mock_page 101 100) (hosted_link_more 2))
  else if decide (url = starred_url (js "octocat") 3) then
    Fulfilled (Response (mock_page 201 100) (hosted_link_more 3))
  else if decide (url = starred_url (js "octocat") 4) then
    Fulfilled (Response (mock_page 301 1) (Some hosted_link_done))
  else Fulfilled (Response [] None).

(** A mock world around an endpoint: the template is read, the rendering
    lists the user and the languages, and the write succeeds. *)
Definition mock_world (endpoint : jsstring → value → fetched) : world :=
  World endpoint
    (inr (js "# Stars of "))
    (λ template ctx,
       inr (template ++ default [] (to_string (username ctx)) ++ js ": "
            ++ join (js ", ") (languages ctx)))
    (λ text, text)
    (λ _, None).

(** An item whose language is the name of a property that every object
    inherits. *)
Definition inherited_language_item : item :=
  Item (js "class-tools") None (js "https://github.com/octocat/class-tools")
    (Some (js "constructor")).

Definition inherited_ghGot (url : jsstring) (_options : value) : fetched :=
  Fulfilled (Response [inherited_language_item] None).

(* ===================================================================== *)
(** * Notions for the further properties                                  *)
(* ===================================================================== *)

(** The fourteen keys the validator looks at. *)
Definition recognized_names : list jsstring :=
  f ← recognized; [long_name f; short_name f].

(** The option of the table that carries the user name. *)
Definition username_option : option_spec :=
  OptionSpec (js "username") (js "u") isString
    (js "invalid option. Username must be a string primitive.").

(** The pages [page], [page + 1], ... that [n] rounds of the loop ask
    for. *)
Definition pages_from (page : N) (n : nat) : list N :=
  (λ i, (page + N.of_nat i)%N) <$> seq 0 n.

(** The response of the [i]-th round, counted from 0, of a loop that
    starts at [page]: page [page + i] answers with [r], and makes the loop
    go on exactly when [more] says so. *)
Definition answers (ghGot : jsstring → value → fetched)
    (username : jsstring) (_options : value) (page : N) (i : nat)
    (r : response)
    (more : bool) : Prop :=
  ghGot (starred_url username (page + N.of_nat i)) _options = Fulfilled r
  ∧ has_next (link r) = more.

(** The error of calling [push] on a value that has none. *)
Definition push_error : error :=
  TypeError (js "stargazed[language].push is not a function").

(** The values that are neither objects nor arrays. *)
Definition primitive (v : value) : bool :=
  match v with
  | VObject _ | VArray _ => false
  | _ => true
  end.

(** A configuration that sets the user name, through either alias, to the
    non-empty string [u], and no other recognized option. *)
Definition username_only (o : value) (u : jsstring) : Prop :=
  isObject o = true
  ∧ (∀ f, f ∈ recognized → long_name f ≠ js "username" →
          present o f = false)
  ∧ alias o (js "username") (js "u") = VString u
  ∧ u ≠ [].

(** A mock world with a given template read and a given write result. *)
Definition mock_world_with (endpoint : jsstring → value → fetched)
    (template : error + jsstring) (written : option error) : world :=
  World endpoint template
    (λ template ctx,
       inr (template ++ default [] (to_string (username ctx)) ++ js ": "
            ++ join (js ", ") (languages ctx)))
    (λ text, text)
    (λ _, written).

(** An endpoint for a user who has starred nothing. *)
Definition empty_ghGot (url : jsstring) (_options : value) : fetched :=
  Fulfilled (Response [] None).

(** The elements of a list without repetition, each at the place of its
    first occurrence. *)
Fixpoint first_occurrences (l : list jsstring) : list jsstring :=
  match l with
  | [] => []
  | x :: l' => x :: filter (λ y, y ≠ x) (first_occurrences l')
  end.

(** How often a code unit occurs in a string. *)
Definition occurrences (c : N) (s : jsstring) : nat :=
  length (filter (λ x, x = c) s).

(* ===================================================================== *)
(** * Facts about strings                                                 *)
(* ===================================================================== *)

Lemma not_elem_of_decide {A} `{EqDecision A} (x : A) (l : list A) :
  bool_decide (x ∈ l) = false → x ∉ l.
Proof. apply bool_decide_eq_false_1. Qed.

Lemma replace_global_app key value s t :
  replace_global key value (s ++ t)
  = replace_global key value s ++ replace_global key value t.
Proof.
  induction s as [|c s IH]; simpl; [done|].
  destruct (c =? key)%N; rewrite IH; [by rewrite app_assoc | done].
Qed.

Lemma htmlEscape_unfold s :
  htmlEscape s
  = replace_global 60 (js "&lt;") (replace_global 62 (js "&gt;") s).
Proof. reflexivity. Qed.

Lemma replace_global_cons key value c s :
  replace_global key value (c :: s)
  = if (c =? key)%N then value ++ replace_global key value s
    else c :: replace_global key value s.
Proof. reflexivity. Qed.

Lemma htmlEscape_cons c s : htmlEscape (c :: s) = escape_unit c ++ htmlEscape s.
Proof.
  rewrite !htmlEscape_unfold, replace_global_cons. unfold escape_unit.
  destruct (c =? 62)%N eqn:Hgt.
  - apply N.eqb_eq in Hgt as ->. by rewrite replace_global_app.
  - rewrite replace_global_cons. by destruct (c =? 60)%N.
Qed.

Lemma htmlEscape_flat_map s : htmlEscape s = flat_map escape_unit s.
Proof.
  induction s as [|c s IH]; [done|].
  by rewrite htmlEscape_cons, IH.
Qed.

Lemma escape_unit_no_angle c x :
  x ∈ escape_unit c → x ≠ 60%N ∧ x ≠ 62%N.
Proof.
  unfold escape_unit.
  destruct (c =? 60)%N eqn:H1; [|destruct (c =? 62)%N eqn:H2].
  - intros Hx. split; intros ->; revert Hx; by apply not_elem_of_decide.
  - intros Hx. split; intros ->; revert Hx; by apply not_elem_of_decide.
  - apply N.eqb_neq in H1, H2. intros ->%list_elem_of_singleton. done.
Qed.

Lemma htmlEscape_no_angle s x : x ∈ htmlEscape s → x ≠ 60%N ∧ x ≠ 62%N.
Proof.
  rewrite htmlEscape_flat_map. intros Hx.
  apply list_elem_of_In, in_flat_map in Hx as (c & _ & Hx).
  apply list_elem_of_In in Hx. by eapply escape_unit_no_angle.
Qed.

Lemma starts_with_app p s : starts_with (p ++ s) p = true.
Proof.
  induction p as [|c p IH]; [done|]. cbn [app starts_with].
  by rewrite N.eqb_refl, IH.
Qed.

Lemma includes_here s p : starts_with s p = true → includes s p = true.
Proof. intros H. destruct s; cbn [includes]; by rewrite H. Qed.

Lemma includes_app_r a b p : includes b p = true → includes (a ++ b) p = true.
Proof.
  intros H. induction a as [|c a IH]; [done|].
  cbn [app includes]. rewrite IH. apply orb_true_r.
Qed.

Lemma includes_app_l a b p : includes a p = true → includes (a ++ b) p = true.
Proof.
  assert (∀ s, starts_with s p = true → starts_with (s ++ b) p = true) as Hsw.
  { induction p as [|x p IH]; intros s; [by destruct s|].
    destruct s as [|c s]; [done|]. cbn [app starts_with].
    intros [-> Hs]%andb_true_iff. by rewrite IH. }
  induction a as [|c a IH]; cbn [app includes].
  - rewrite orb_false_r. intros H. apply includes_here. by apply (Hsw []).
  - intros [H|H]%orb_true_iff.
    + apply (Hsw (c :: a)) in H. cbn [app] in H. by rewrite H.
    + rewrite IH by done. apply orb_true_r.
Qed.

Lemma includes_middle a p b : includes (a ++ p ++ b) p = true.
Proof. apply includes_app_r, includes_here, starts_with_app. Qed.

Lemma join_includes sep parts part p :
  part ∈ parts → includes part p = true → includes (join sep parts) p = true.
Proof.
  intros Hin Hp. induction parts as [|x parts IH]; [by apply elem_of_nil in Hin|].
  apply elem_of_cons in Hin as [<-|Hin].
  - destruct parts; [done|]. cbn [join]. by apply includes_app_l.
  - destruct parts as [|y parts]; [by apply elem_of_nil in Hin|].
    change (join sep (x :: y :: parts)) with (x ++ sep ++ join sep (y :: parts)).
    by apply includes_app_r, includes_app_r, IH.
Qed.

(** ** C2 *)

(** C2, as stated, fails: on a description with two [<] the source's
    escaping rewrites both, while replacing only the first occurrence
    would leave the second one raw. *)
Lemma htmlEscape_not_first_occurrence_only :
  htmlEscape (js "a<b<c") = js "a&lt;b&lt;c"
  ∧ spec_escape_first_occurrences (js "a<b<c") = js "a&lt;b<c"
  ∧ htmlEscape (js "a<b<c") ≠ spec_escape_first_occurrences (js "a<b<c").
Proof. by vm_compute. Qed.

(** C2, amended: for every description string the escaping replaces every
    occurrence of [<] by [&lt;] and every occurrence of [>] by [&gt;] and
    leaves the other code units as they are, so no raw [<] or [>] is left
    in the result. *)
Theorem htmlEscape_every_occurrence (d : jsstring) :
  htmlEscape d = flat_map escape_unit d
  ∧ (60%N ∉ htmlEscape d)
  ∧ (62%N ∉ htmlEscape d).
Proof.
  split; [apply htmlEscape_flat_map|].
  split; intros Hx; by destruct (htmlEscape_no_angle _ _ Hx).
Qed.

(** ** C5 *)

(** C5: for the description ["  <script>bad</script>\ntext  "] the row the
    aggregator pushes carries [&lt;script&gt;bad&lt;/script&gt;text]: no
    raw [<] or [>] is left, the newline is gone, and the text neither
    starts nor ends with white space. *)
Theorem script_description_cleaned :
  let cleaned := trim (escape_description (Some script_description)) in
  cleaned = js "&lt;script&gt;bad&lt;/script&gt;text"
  ∧ (60%N ∉ cleaned) ∧ (62%N ∉ cleaned) ∧ (10%N ∉ cleaned)
  ∧ is_white_space <$> head cleaned = Some false
  ∧ is_white_space <$> last cleaned = Some false
  ∧ ∀ name html_url language,
      row (Item name (Some script_description) html_url language)
      = (name, html_url, cleaned).
Proof.
  intros cleaned.
  assert (cleaned = js "&lt;script&gt;bad&lt;/script&gt;text") as ->
    by (by vm_compute).
  repeat split; try (by apply not_elem_of_decide); by vm_compute.
Qed.

(* ===================================================================== *)
(** * Facts about the aggregator                                          *)
(* ===================================================================== *)

Lemma own_get_own_set_eq g key v : own_get (own_set g key v) key = Some v.
Proof.
  induction g as [|[k v0] g IH]; simpl.
  - by rewrite decide_True.
  - destruct (decide (k = key)); simpl.
    + by rewrite decide_True.
    + by rewrite decide_False.
Qed.

Lemma own_get_own_set_ne g key key' v :
  key ≠ key' → own_get (own_set g key v) key' = own_get g key'.
Proof.
  intros Hne. induction g as [|[k v0] g IH]; simpl.
  - by rewrite decide_False.
  - destruct (decide (k = key)) as [->|]; simpl.
    + by rewrite !decide_False.
    + by rewrite IH.
Qed.

Lemma total_rows_cons k v (g : grouping) :
  total_rows ((k, v) :: g) = length v + total_rows g.
Proof. reflexivity. Qed.

Lemma total_rows_own_set_fresh g key v :
  own_get g key = None → total_rows (own_set g key v) = total_rows g + length v.
Proof.
  induction g as [|[k v0] g IH]; cbn [own_set own_get].
  - intros _. rewrite total_rows_cons. unfold total_rows. simpl. lia.
  - destruct (decide (k = key)); [done|]. intros Hg.
    rewrite !total_rows_cons, IH; [lia|done].
Qed.

Lemma total_rows_own_set_push g key b x :
  own_get g key = Some b →
  total_rows (own_set g key (b ++ [x])) = S (total_rows g).
Proof.
  induction g as [|[k v0] g IH]; cbn [own_set own_get]; [done|].
  destruct (decide (k = key)).
  - intros [= ->]. rewrite !total_rows_cons, length_app. simpl. lia.
  - intros Hg. rewrite !total_rows_cons, IH; [lia|done].
Qed.

Lemma own_set_keys_present g key v :
  is_Some (own_get g key) → (own_set g key v).*1 = g.*1.
Proof.
  induction g as [|[k v0] g IH]; cbn [own_set own_get]; [by intros [? ?]|].
  destruct (decide (k = key)) as [->|]; [done|].
  intros Hg. by rewrite !fmap_cons, IH.
Qed.

Lemma own_set_keys_fresh g key v :
  own_get g key = None → (own_set g key v).*1 = g.*1 ++ [key].
Proof.
  induction g as [|[k v0] g IH]; cbn [own_set own_get]; [done|].
  destruct (decide (k = key)); [done|].
  intros Hg. by rewrite !fmap_cons, IH.
Qed.

Lemma own_get_None_keys g key : own_get g key = None ↔ key ∉ g.*1.
Proof.
  induction g as [|[k v0] g IH]; cbn [own_get].
  - split; [intros _; apply not_elem_of_nil | done].
  - rewrite fmap_cons, not_elem_of_cons. cbn [fst].
    destruct (decide (k = key)) as [->|Hne].
    + split; [done | by intros [? _]].
    + rewrite IH. split; [by intros ?; split; [congruence|] | by intros [_ ?]].
Qed.

(** The callback on an item whose key is not an inherited name, or is
    already an own property: one row is appended to the key's bucket, a
    bucket that did not exist becoming the newest property. *)
Lemma aggregate_item_push g it :
  let key := language_key it in
  is_Some (own_get g key) ∨ key ∉ Object_prototype →
  ∃ g', aggregate_item g it = inr g'
    ∧ own_get g' key = Some (bucket g key ++ [row it])
    ∧ (∀ k, k ≠ key → own_get g' k = own_get g k)
    ∧ total_rows g' = S (total_rows g)
    ∧ g'.*1 = match own_get g key with
            | Some _ => g.*1
            | None => g.*1 ++ [key]
            end.
Proof.
  intros key Hkey. unfold aggregate_item, js_in, bucket.
  fold (language_key it). fold key.
  destruct (own_get g key) as [b|] eqn:Hg.
  - rewrite bool_decide_eq_true_2 by done. simpl. rewrite Hg.
    eexists; split; [done|]. split; [apply own_get_own_set_eq|].
    split; [intros; by apply own_get_own_set_ne|].
    split; [by apply total_rows_own_set_push|].
    apply own_set_keys_present. by rewrite Hg.
  - destruct Hkey as [[? [=]]|Hkey].
    rewrite bool_decide_eq_false_2 by (by intros [? ?]).
    rewrite bool_decide_eq_false_2 by done. simpl.
    rewrite own_get_own_set_eq.
    eexists; split; [done|]. split; [apply own_get_own_set_eq|].
    split; [intros; by rewrite !own_get_own_set_ne|].
    split.
    + rewrite (total_rows_own_set_push _ _ []) by apply own_get_own_set_eq.
      rewrite total_rows_own_set_fresh by done. simpl. lia.
    + rewrite own_set_keys_present by (by rewrite own_get_own_set_eq).
      by apply own_set_keys_fresh.
Qed.

(** The callback throws exactly on a key that is inherited and not own. *)
Lemma aggregate_item_throws g it :
  own_get g (language_key it) = None →
  language_key it ∈ Object_prototype →
  aggregate_item g it
  = inl (TypeError (js "stargazed[language].push is not a function")).
Proof.
  intros Hg Hkey. unfold aggregate_item, js_in. fold (language_key it).
  rewrite Hg. rewrite (bool_decide_eq_true_2 _ Hkey).
  rewrite orb_true_r. by rewrite Hg.
Qed.

Lemma aggregate_item_inr g it g' :
  aggregate_item g it = inr g' →
  is_Some (own_get g (language_key it)) ∨ language_key it ∉ Object_prototype.
Proof.
  intros Hok.
  destruct (own_get g (language_key it)) as [b|] eqn:Hg; [by left; eexists|].
  destruct (decide (language_key it ∈ Object_prototype)) as [Hin|]; [|by right].
  by rewrite aggregate_item_throws in Hok.
Qed.

Lemma bucket_filter_step g g' it k :
  own_get g' (language_key it) = Some (bucket g (language_key it) ++ [row it]) →
  (∀ k', k' ≠ language_key it → own_get g' k' = own_get g k') →
  bucket g' k
  = bucket g k ++ (row <$> filter (λ i, language_key i = k) [it]).
Proof.
  intros Hkey Hother. unfold bucket at 1.
  destruct (decide (language_key it = k)) as [<-|Hne].
  - rewrite Hkey. by rewrite filter_cons_True.
  - rewrite Hother by done. rewrite filter_cons_False by done.
    by rewrite filter_nil, app_nil_r.
Qed.

(** When the aggregation returns, every bucket holds the rows of the items
    of its language, in the order of the list, after what it held before;
    one row was added per item, and no key was created twice. *)
Lemma aggregate_inr g items g' :
  aggregate g items = inr g' →
  (∀ k, bucket g' k
        = bucket g k ++ (row <$> filter (λ i, language_key i = k) items))
  ∧ total_rows g' = total_rows g + length items
  ∧ (NoDup g.*1 → NoDup g'.*1).
Proof.
  revert g. induction items as [|it items IH]; intros g; cbn [aggregate].
  - intros [= <-]. split; [intros; by rewrite filter_nil, app_nil_r|].
    split; [simpl; lia | done].
  - destruct (aggregate_item g it) as [e|g1] eqn:Hit; [done|].
    intros Hrest. pose proof (aggregate_item_inr _ _ _ Hit) as Hkey.
    destruct (aggregate_item_push g it Hkey) as (g1' & Hit' & Hb & Ho & Ht & Hk).
    rewrite Hit in Hit'. injection Hit' as <-.
    destruct (IH _ Hrest) as (IHb & IHt & IHk).
    split; [|split].
    + intros k. rewrite IHb, (bucket_filter_step g g1 it k Hb Ho).
      rewrite <- app_assoc, <- fmap_app. f_equal. f_equal.
      by rewrite <- filter_app.
    + rewrite IHt, Ht. simpl. lia.
    + intros Hnd. apply IHk. rewrite Hk.
      destruct (own_get g (language_key it)) eqn:Hg; [done|].
      apply NoDup_app. split; [done|]. split; [|apply NoDup_singleton].
      intros x Hx ->%list_elem_of_singleton.
      by apply own_get_None_keys in Hg.
Qed.

(** The aggregation returns whenever no item's language is a name that
    object literals inherit. *)
Lemma aggregate_total g items :
  (∀ it, it ∈ items → language_key it ∉ Object_prototype) →
  ∃ g', aggregate g items = inr g'.
Proof.
  revert g. induction items as [|it items IH]; intros g Hitems; cbn [aggregate].
  - by eexists.
  - destruct (aggregate_item_push g it) as (g1 & -> & _).
    { right. apply Hitems. left. }
    apply IH. intros i Hi. apply Hitems. by right.
Qed.

(** X24: away from the inherited names the grouping is a partition of the
    fetched list: the rows of all languages together are as many as the
    items, every key occurs once, and a bucket lists the rows of the items
    of its language in fetch order. *)
Lemma aggregate_partition items :
  (∀ it, it ∈ items → language_key it ∉ Object_prototype) →
  ∃ g, aggregate [] items = inr g
    ∧ total_rows g = length items
    ∧ NoDup g.*1
    ∧ ∀ k, bucket g k = row <$> filter (λ i, language_key i = k) items.
Proof.
  intros Hitems. destruct (aggregate_total [] items Hitems) as [g Hg].
  destruct (aggregate_inr _ _ _ Hg) as (Hb & Ht & Hk).
  exists g. split; [done|]. split; [done|]. split; [apply Hk, NoDup_nil_2|].
  intros k. by rewrite Hb.
Qed.

(** ** C7 *)

(** C7: for every item whose language is absent or the empty string, and
    whatever the grouping holds so far, the callback returns normally and
    appends the item's row to the bucket of the key [Others], leaving the
    other buckets alone; the row of an item without description carries
    the empty string; and whenever the aggregation of a whole list
    returns, the rows of such items are in the [Others] bucket. *)
Theorem absent_language_filed_under_Others (g : grouping) (it : item) :
  language it = None ∨ language it = Some [] →
  (∃ g', aggregate_item g it = inr g'
     ∧ own_get g' (js "Others") = Some (bucket g (js "Others") ++ [row it])
     ∧ ∀ k, k ≠ js "Others" → own_get g' k = own_get g k)
  ∧ (description it = None → row it = (name it, html_url it, []))
  ∧ (∀ before after g', aggregate [] (before ++ it :: after) = inr g' →
       row it ∈ bucket g' (js "Others")).
Proof.
  intros Hlang.
  assert (language_key it = js "Others") as Hkey.
  { unfold language_key. by destruct Hlang as [-> | ->]. }
  split; [|split].
  - destruct (aggregate_item_push g it) as (g' & Hg' & Hb & Ho & _).
    { right. rewrite Hkey. by apply not_elem_of_decide. }
    rewrite Hkey in Hb, Ho. by exists g'.
  - intros Hd. unfold row. by rewrite Hd.
  - intros before after g' Hg'.
    destruct (aggregate_inr _ _ _ Hg') as (Hb & _).
    rewrite Hb. apply list_elem_of_fmap_2, list_elem_of_filter.
    split; [done|]. apply elem_of_app. right. left.
Qed.

(** An item without language and without description, first of a list. *)
Lemma absent_language_witness :
  let it := Item (js "dotfiles") None (js "https://github.com/a/dotfiles") None in
  (∃ g', aggregate_item [] it = inr g'
     ∧ own_get g' (js "Others") = Some (bucket [] (js "Others") ++ [row it])
     ∧ ∀ k, k ≠ js "Others" → own_get g' k = own_get [] k)
  ∧ (description it = None → row it = (name it, html_url it, []))
  ∧ (∀ before after g', aggregate [] (before ++ it :: after) = inr g' →
       row it ∈ bucket g' (js "Others")).
Proof.
  intros it. apply (absent_language_filed_under_Others [] it).
  left. reflexivity.
Defined.

(* ===================================================================== *)
(** * Facts about the fetcher                                             *)
(* ===================================================================== *)

Lemma print_link_head ls : ls ≠ [] → head (print_link ls) = Some 60%N.
Proof. destruct ls as [|l [|l' ls]]; done. Qed.

(** The source's substring test accepts every header that advertises a
    next relation. *)
Lemma spec_advertises_next_has_next link :
  spec_advertises_next link → has_next link = true.
Proof.
  intros (ls & t & -> & Hin). unfold has_next.
  assert (includes (print_link ls) (js "next") = true) as Hinc.
  { eapply join_includes; [by apply list_elem_of_fmap_2|].
    unfold print_link_value. cbn [rel target].
    rewrite !app_assoc, <- (app_assoc _ (js "next")).
    apply includes_middle. }
  rewrite Hinc, andb_true_r.
  destruct (print_link ls) eqn:E; [done|]. done.
Qed.

(** A header that advertises a next relation contains the relation name
    with its closing quote. *)
Lemma spec_advertises_next_quoted link :
  spec_advertises_next link →
  ∃ l, link = Some l ∧ includes l (js "next" ++ [34%N]) = true.
Proof.
  intros (ls & t & -> & Hin). eexists. split; [reflexivity|].
  eapply join_includes; [by apply list_elem_of_fmap_2|].
  unfold print_link_value. cbn [rel target].
  rewrite !app_assoc, <- (app_assoc _ (js "next")).
  rewrite <- (app_nil_r (js "next" ++ [34%N])) at 1.
  apply includes_middle.
Qed.

Lemma has_next_iff link :
  has_next link = true ↔ ∃ l, link = Some l ∧ includes l (js "next") = true.
Proof.
  unfold has_next. split.
  - destruct link as [l|]; [|done]. intros [_ H]%andb_true_iff. by exists l.
  - intros (l & -> & H). rewrite H, andb_true_r. by destruct l.
Qed.

Section Loop.

Context (ghGot : jsstring → value → fetched)
  (username : jsstring) (_options : value).

Implicit Types (fuel : nat) (page : N) (acc : list item) (r : response).

Lemma loop_failed fuel page acc err :
  ghGot (starred_url username page) _options = Failed err →
  loop (S fuel) ghGot username _options page acc
  = ([starred_url username page], Flashed (flash_text (error_to_string err))).
Proof. intros H. cbn [loop]. by rewrite H. Qed.

Lemma loop_next fuel page acc r :
  ghGot (starred_url username page) _options = Fulfilled r →
  has_next (link r) = true →
  loop (S fuel) ghGot username _options page acc
  = (starred_url username page
       :: (loop fuel ghGot username _options (page + 1) (acc ++ body r)).1,
     (loop fuel ghGot username _options (page + 1) (acc ++ body r)).2).
Proof. intros H Hn. cbn [loop]. by rewrite H, Hn. Qed.

Lemma loop_last fuel page acc r :
  ghGot (starred_url username page) _options = Fulfilled r →
  has_next (link r) = false →
  loop (S fuel) ghGot username _options page acc
  = ([starred_url username page], Listed (acc ++ body r)).
Proof. intros H Hn. cbn [loop]. by rewrite H, Hn. Qed.

Lemma loop_first_request fuel page acc :
  ∃ rest, (loop (S fuel) ghGot username _options page acc).1
          = starred_url username page :: rest.
Proof.
  cbn [loop]. destruct (ghGot _ _) as [r|e]; [|by eexists].
  destruct (has_next (link r)); by eexists.
Qed.

Lemma loop_S fuel page acc :
  loop (S fuel) ghGot username _options page acc
  = match ghGot (starred_url username page) _options with
    | Failed err =>
        ([starred_url username page],
         Flashed (flash_text (error_to_string err)))
    | Fulfilled r =>
        if has_next (link r) then
          (starred_url username page
             :: (loop fuel ghGot username _options (page + 1)
                   (acc ++ body r)).1,
           (loop fuel ghGot username _options (page + 1) (acc ++ body r)).2)
        else ([starred_url username page], Listed (acc ++ body r))
    end.
Proof. reflexivity. Qed.

(** Fuel only bounds the model: a loop that has ended does the same with
    more fuel. *)
Lemma loop_more_fuel fuel page acc :
  (loop fuel ghGot username _options page acc).2 ≠ Suspended →
  loop (S fuel) ghGot username _options page acc
  = loop fuel ghGot username _options page acc.
Proof.
  revert page acc. induction fuel as [|fuel IH]; intros page acc; [done|].
  rewrite (loop_S (S fuel)), (loop_S fuel).
  destruct (ghGot _ _) as [r|e]; [|done].
  destruct (has_next (link r)); [|done]. cbn [snd].
  intros H. by rewrite IH.
Qed.

(** The loop never runs out of fuel without having sent one request per
    unit of fuel: an endpoint that always advertises a next page keeps it
    running. *)
Lemma loop_suspended_requests fuel page acc :
  (loop fuel ghGot username _options page acc).2 = Suspended →
  length (loop fuel ghGot username _options page acc).1 = fuel.
Proof.
  revert page acc. induction fuel as [|fuel IH]; intros page acc; [done|].
  cbn [loop]. destruct (ghGot _ _) as [r|e]; [|done].
  destruct (has_next (link r)); [|done]. cbn [fst snd length].
  intros H. by rewrite IH.
Qed.

(** ** C1 *)

(** C1, amended: when the endpoint answers pages 1, 2 and 3 with 100
    items each and a link header that contains the text [next], and page 4
    with 1 item and no link header, an empty one, or one that does not
    contain the text [next] anywhere, the loop, given fuel for four
    rounds, returns the 301 items, page after page and each page in its
    own order, having requested exactly the URLs of pages 1 to 4 in this
    order. *)
Theorem loop_three_full_pages_and_one
    (p1 p2 p3 p4 : list item) (l1 l2 l3 l4 : option jsstring) (fuel : nat) :
  ghGot (starred_url username 1) _options = Fulfilled (Response p1 l1) →
  ghGot (starred_url username 2) _options = Fulfilled (Response p2 l2) →
  ghGot (starred_url username 3) _options = Fulfilled (Response p3 l3) →
  ghGot (starred_url username 4) _options = Fulfilled (Response p4 l4) →
  length p1 = 100 → length p2 = 100 → length p3 = 100 → length p4 = 1 →
  has_next l1 = true → has_next l2 = true → has_next l3 = true →
  has_next l4 = false →
  4 ≤ fuel →
  ∃ list,
    loop fuel ghGot username _options 1 []
    = ([starred_url username 1; starred_url username 2;
        starred_url username 3; starred_url username 4], Listed list)
    ∧ list = p1 ++ p2 ++ p3 ++ p4
    ∧ length list = 301.
Proof.
  intros G1 G2 G3 G4 L1 L2 L3 L4 N1 N2 N3 N4 Hfuel.
  do 4 (destruct fuel as [|fuel]; [lia|]).
  exists (p1 ++ p2 ++ p3 ++ p4). split; [|split; [done|]].
  - rewrite (loop_next _ _ _ _ G1 N1). change (1 + 1)%N with 2%N.
    rewrite (loop_next _ _ _ _ G2 N2). change (2 + 1)%N with 3%N.
    rewrite (loop_next _ _ _ _ G3 N3). change (3 + 1)%N with 4%N.
    rewrite (loop_last _ _ _ _ G4 N4). cbn [body fst snd app].
    by rewrite <- !app_assoc.
  - rewrite !length_app. lia.
Qed.

(** ** C4 *)

(** C4, amended: for every fetched response the loop requests the next
    page exactly when the link header is present and contains the text
    [next], which every header advertising a next relation does; when the
    header is missing, empty or without that text, the loop stops after
    this request and returns the accumulated items followed by the body. *)
Theorem loop_follows_text_next
    (page : N) (acc : list item) (fuel : nat) (r : response) :
  ghGot (starred_url username page) _options = Fulfilled r →
  (has_next (link r) = true
   ↔ ∃ l, link r = Some l ∧ includes l (js "next") = true)
  ∧ (spec_advertises_next (link r) → has_next (link r) = true)
  ∧ (link r = None ∨ link r = Some [] → has_next (link r) = false)
  ∧ (has_next (link r) = true →
     ∃ rest, (loop (S (S fuel)) ghGot username _options page acc).1
             = starred_url username page
               :: starred_url username (page + 1) :: rest)
  ∧ (has_next (link r) = false →
     loop (S fuel) ghGot username _options page acc
     = ([starred_url username page], Listed (acc ++ body r))).
Proof.
  intros Hr. split; [apply has_next_iff|].
  split; [apply spec_advertises_next_has_next|].
  split; [by intros [-> | ->]|]. split.
  - intros Hn. rewrite (loop_next _ _ _ _ Hr Hn). cbn [fst].
    destruct (loop_first_request fuel (page + 1) (acc ++ body r))
      as [rest ->].
    by exists rest.
  - intros Hn. by apply loop_last.
Qed.

End Loop.

(** The theorem at the mock endpoint. *)
Lemma loop_mock_endpoint_witness :
  ∃ list,
    loop 10 mock_ghGot (js "octocat")
      (object_literal [("username", octocat)]) 1 []
    = ([starred_url (js "octocat") 1; starred_url (js "octocat") 2;
        starred_url (js "octocat") 3; starred_url (js "octocat") 4],
       Listed list)
    ∧ list = mock_page 1 100 ++ mock_page 101 100 ++ mock_page 201 100
             ++ mock_page 301 1
    ∧ length list = 301.
Proof.
  apply (loop_three_full_pages_and_one mock_ghGot (js "octocat") _
           (mock_page 1 100) (mock_page 101 100) (mock_page 201 100)
           (mock_page 301 1)
           (mock_link_more 1) (mock_link_more 2) (mock_link_more 3)
           mock_link_done 10);
    try (vm_compute; reflexivity).
  lia.
Defined.

(** C1, as stated, fails: the final page of the hosted endpoint carries a
    well-formed header with the relations [prev] and [first] and no [next]
    relation, but the targets contain the text [next]; the loop goes on
    and issues a fifth request. *)
Lemma final_page_without_next_relation_followed :
  (∀ o, hosted_ghGot (starred_url (js "octocat") 1) o
        = Fulfilled (Response (mock_page 1 100) (hosted_link_more 1))
      ∧ hosted_ghGot (starred_url (js "octocat") 2) o
        = Fulfilled (Response (mock_page 101 100) (hosted_link_more 2))
      ∧ hosted_ghGot (starred_url (js "octocat") 3) o
        = Fulfilled (Response (mock_page 201 100) (hosted_link_more 3))
      ∧ hosted_ghGot (starred_url (js "octocat") 4) o
        = Fulfilled (Response (mock_page 301 1) (Some hosted_link_done)))
  ∧ length (mock_page 1 100) = 100 ∧ length (mock_page 101 100) = 100
  ∧ length (mock_page 201 100) = 100 ∧ length (mock_page 301 1) = 1
  ∧ (∀ page, spec_advertises_next (hosted_link_more page))
  ∧ spec_well_formed_link hosted_link_done
  ∧ ¬ spec_advertises_next (Some hosted_link_done)
  ∧ loop 10 hosted_ghGot (js "octocat") (VObject ∅) 1 []
    = ([starred_url (js "octocat") 1; starred_url (js "octocat") 2;
        starred_url (js "octocat") 3; starred_url (js "octocat") 4;
        starred_url (js "octocat") 5],
       Listed (mock_page 1 301)).
Proof.
  split; [by vm_compute|]. do 4 (split; [by vm_compute|]).
  split; [|split; [|split]].
  - intros page. eexists _, _. split; [reflexivity|]. apply list_elem_of_here.
  - eexists. split; [|reflexivity]. done.
  - intros H. apply spec_advertises_next_quoted in H as (l & [= <-] & H).
    vm_compute in H. discriminate H.
  - by vm_compute.
Qed.

(** C4, as stated, fails: a response whose link header is malformed, and
    so advertises no relation at all, still makes the loop request page 2
    when the header contains the text [next]. *)
Lemma malformed_link_still_followed :
  ¬ spec_well_formed_link malformed_link
  ∧ ¬ spec_advertises_next (Some malformed_link)
  ∧ loop 5 malformed_ghGot (js "octocat") (VObject ∅) 1 []
    = ([starred_url (js "octocat") 1; starred_url (js "octocat") 2],
       Listed (mock_page 1 2)).
Proof.
  split; [|split].
  - intros (ls & Hne & E). apply print_link_head in Hne.
    rewrite <- E in Hne. discriminate Hne.
  - intros (ls & t & [= E] & Hin).
    assert (ls ≠ []) as Hne by (intros ->; by apply elem_of_nil in Hin).
    apply print_link_head in Hne. rewrite <- E in Hne. discriminate Hne.
  - by vm_compute.
Qed.


(** The theorem at the first page of the mock endpoint. *)
Lemma loop_follows_text_next_witness :
  let r := Response (mock_page 1 100) (mock_link_more 1) in
  (has_next (link r) = true
   ↔ ∃ l, link r = Some l ∧ includes l (js "next") = true)
  ∧ (spec_advertises_next (link r) → has_next (link r) = true)
  ∧ (link r = None ∨ link r = Some [] → has_next (link r) = false)
  ∧ (has_next (link r) = true →
     ∃ rest, (loop 2 mock_ghGot (js "octocat") (VObject ∅) 1 []).1
             = starred_url (js "octocat") 1
               :: starred_url (js "octocat") (1 + 1) :: rest)
  ∧ (has_next (link r) = false →
     loop 1 mock_ghGot (js "octocat") (VObject ∅) 1 []
     = ([starred_url (js "octocat") 1], Listed ([] ++ body r))).
Proof.
  intros r.
  apply (loop_follows_text_next mock_ghGot (js "octocat") (VObject ∅)
           1 [] 0 r).
  vm_compute. reflexivity.
Defined.

(* ===================================================================== *)
(** * Facts about the validator                                           *)
(* ===================================================================== *)

Lemma validate_object o :
  isObject o = true → validate o = returning (chain o recognized).
Proof. by destruct o. Qed.

(** On an object the validator returns what its blocks return: it never
    throws. *)
Lemma validate_returns o st st' r :
  isObject o = true →
  validate o st = (st', Returns r) ↔ chain o recognized st = (st', r).
Proof.
  intros Ho. rewrite validate_object by done. unfold returning.
  destruct (chain o recognized st) as [st0 r0]. cbn [fst snd].
  split; by intros [= -> ->].
Qed.

Lemma validate_object_result o st :
  isObject o = true →
  (validate o st).2 = Returns (chain o recognized st).2.
Proof. intros Ho. by rewrite validate_object. Qed.

Lemma validate_object_state o st :
  isObject o = true → (validate o st).1 = (chain o recognized st).1.
Proof. intros Ho. by rewrite validate_object. Qed.

Lemma validate_not_object o st :
  isObject o = false →
  validate o st
  = (st, match not_an_object o with
         | Some message => Returns (Some (TypeError message))
         | None => Throws cannot_convert
         end).
Proof.
  intros Ho. unfold validate. rewrite Ho. by destruct (not_an_object o).
Qed.

(** The validator throws only on an input that is not an object and does
    not convert to a string, and then with the error of the conversion. *)
Lemma validate_throws o st st' e :
  validate o st = (st', Throws e) →
  isObject o = false ∧ to_string o = None ∧ e = cannot_convert.
Proof.
  destruct (isObject o) eqn:Ho.
  - by rewrite validate_object.
  - rewrite validate_not_object by done. unfold not_an_object.
    destruct (to_string o); [done|]. by intros [= _ <-].
Qed.

Lemma read_insert (st : options) key v : read (<[key := v]> st) key = v.
Proof. unfold read. by rewrite lookup_insert_eq. Qed.

(** One block, by cases on whether the option is present. *)
Lemma check_spec_unfold o f st :
  check_spec o f st
  = if present o f then
      (<[long_name f := alias o (long_name f) (short_name f)]> st,
       if type_test f (alias o (long_name f) (short_name f)) then None
       else Some (TypeError (type_message f)))
    else (st, None).
Proof.
  unfold check_spec, check_option, present.
  destruct (_ || _); [|done]. rewrite read_insert. by destruct (type_test f _).
Qed.

Lemma chain_cons o f fs st :
  chain o (f :: fs) st
  = match check_spec o f st with
    | (st', None) => chain o fs st'
    | (st', Some e) => (st', Some e)
    end.
Proof. reflexivity. Qed.

(** A canonical field that no present option names is left as it was. *)
Lemma chain_frame o fs st k :
  (∀ f, f ∈ fs → long_name f = k → present o f = false) →
  (chain o fs st).1 !! k = st !! k.
Proof.
  revert st. induction fs as [|f fs IH]; intros st Hk; [done|].
  rewrite chain_cons, check_spec_unfold.
  assert (∀ g, g ∈ fs → long_name g = k → present o g = false) as Hk'
    by (intros g Hg; apply Hk; by right).
  destruct (present o f) eqn:Hp.
  - assert (long_name f ≠ k) as Hne.
    { intros E. rewrite (Hk f) in Hp; [done|left|done]. }
    destruct (type_test f _); cbn [fst].
    + by rewrite IH, lookup_insert_ne.
    + by rewrite lookup_insert_ne.
  - by rewrite IH.
Qed.

(** When the validator returns an error, it is the message of a present
    option whose value fails its type test, and the canonical field
    already holds that value. *)
Lemma chain_error o fs st st' e :
  chain o fs st = (st', Some e) →
  ∃ f, f ∈ fs ∧ present o f = true
    ∧ e = TypeError (type_message f)
    ∧ st' !! long_name f = Some (alias o (long_name f) (short_name f))
    ∧ type_test f (alias o (long_name f) (short_name f)) = false.
Proof.
  revert st. induction fs as [|f fs IH]; intros st; [done|].
  rewrite chain_cons, check_spec_unfold.
  destruct (present o f) eqn:Hp.
  - destruct (type_test f _) eqn:Ht.
    + intros (g & Hg & H)%IH. exists g. split; [by right | done].
    + intros [= <- <-]. exists f. split; [left|].
      by rewrite lookup_insert_eq.
  - intros (g & Hg & H)%IH. exists g. split; [by right | done].
Qed.

(** When the validator returns no error, every present option has passed
    its type test and its canonical field holds the resolved value. *)
Lemma chain_success o fs st st' f :
  NoDup (long_name <$> fs) →
  chain o fs st = (st', None) →
  f ∈ fs → present o f = true →
  st' !! long_name f = Some (alias o (long_name f) (short_name f))
  ∧ type_test f (alias o (long_name f) (short_name f)) = true.
Proof.
  revert st. induction fs as [|g fs IH]; intros st Hnd Hchain Hf Hp.
  { by apply elem_of_nil in Hf. }
  rewrite fmap_cons in Hnd. apply NoDup_cons in Hnd as [Hg Hnd].
  rewrite chain_cons, check_spec_unfold in Hchain.
  apply elem_of_cons in Hf as [->|Hf].
  - rewrite Hp in Hchain. destruct (type_test g _) eqn:Ht; [|done].
    split; [|done]. rewrite <- (lookup_insert_eq st (long_name g)).
    replace st' with (chain o fs (<[long_name g := alias o (long_name g)
                                     (short_name g)]> st)).1
      by (by rewrite Hchain).
    apply chain_frame. intros h Hh E. destruct Hg. rewrite <- E.
    by apply list_elem_of_fmap_2.
  - destruct (present o g); [destruct (type_test g _); [|done]|]; by eapply IH.
Qed.

(** A present option whose resolved value fails its type test makes the
    validator return the error of some option. *)
Lemma chain_fails o fs st f :
  f ∈ fs → present o f = true →
  type_test f (alias o (long_name f) (short_name f)) = false →
  ∃ g, g ∈ fs ∧ (chain o fs st).2 = Some (TypeError (type_message g)).
Proof.
  revert st. induction fs as [|h fs IH]; intros st Hf Hp Ht.
  { by apply elem_of_nil in Hf. }
  rewrite chain_cons, check_spec_unfold.
  destruct (present o h) eqn:Hph; [destruct (type_test h _) eqn:Hth|].
  - apply elem_of_cons in Hf as [->|Hf]; [congruence|].
    destruct (IH (<[long_name h := alias o (long_name h) (short_name h)]> st)
                Hf Hp Ht) as (g & Hg & ->).
    exists g. split; [by right | done].
  - exists h. split; [left | done].
  - apply elem_of_cons in Hf as [->|Hf]; [congruence|].
    destruct (IH st Hf Hp Ht) as (g & Hg & ->).
    exists g. split; [by right | done].
Qed.

(** What the validator does to [options] depends on the input alone: the
    fields it writes are laid over the state it finds. *)
Lemma chain_union o fs st :
  chain o fs st = ((chain o fs ∅).1 ∪ st, (chain o fs ∅).2).
Proof.
  assert (∀ st0 st, chain o fs (st0 ∪ st)
                    = ((chain o fs st0).1 ∪ st, (chain o fs st0).2)) as H.
  { clear st. induction fs as [|f fs IH]; intros st0 st; [done|].
    rewrite !chain_cons, !check_spec_unfold.
    destruct (present o f); [|apply IH].
    rewrite insert_union_l.
    destruct (type_test f _); [apply IH | done]. }
  specialize (H ∅ st). by rewrite (left_id_L ∅ (∪)) in H.
Qed.

Lemma validate_union o st :
  validate o st = ((validate o ∅).1 ∪ st, (validate o ∅).2).
Proof.
  destruct (isObject o) eqn:Ho.
  - rewrite validate_object by done. unfold returning.
    by rewrite (chain_union o recognized st).
  - rewrite !validate_not_object by done. cbn [fst snd].
    by rewrite (left_id_L ∅ (∪)).
Qed.


Lemma recognized_NoDup : NoDup (long_name <$> recognized).
Proof. by apply (bool_decide_unpack _). Qed.

Lemma recognized_reject_undefined f :
  f ∈ recognized → type_test f VUndefined = false.
Proof.
  revert f. apply Forall_forall. unfold recognized. by repeat constructor.
Qed.

Lemma recognized_long_name_inj f g :
  f ∈ recognized → g ∈ recognized → long_name f = long_name g → f = g.
Proof.
  pose proof recognized_NoDup as Hnd. revert Hnd.
  generalize recognized as fs.
  induction fs as [|h fs IH]; intros Hnd Hf Hg E.
  { by apply elem_of_nil in Hf. }
  rewrite fmap_cons in Hnd. apply NoDup_cons in Hnd as [Hh Hnd].
  apply elem_of_cons in Hf as [->|Hf], Hg as [->|Hg]; [done| | |by apply IH].
  - destruct Hh. rewrite E. by apply list_elem_of_fmap_2.
  - destruct Hh. rewrite <- E. by apply list_elem_of_fmap_2.
Qed.

(** After a validation without error, a canonical field holds the resolved
    value of its option, which has the right type, when the option is
    present, and what it held before otherwise. *)
Lemma validated_field o st st' f :
  isObject o = true → validate o st = (st', Returns None) → f ∈ recognized →
  if present o f then
    st' !! long_name f = Some (alias o (long_name f) (short_name f))
    ∧ type_test f (alias o (long_name f) (short_name f)) = true
  else st' !! long_name f = st !! long_name f.
Proof.
  intros Ho Hv Hf. apply validate_returns in Hv; [|done].
  destruct (present o f) eqn:Hp.
  - by eapply chain_success; [apply recognized_NoDup|..].
  - replace st' with (chain o recognized st).1 by (by rewrite Hv).
    apply chain_frame. intros g Hg E.
    by rewrite (recognized_long_name_inj g f Hg Hf E).
Qed.

(** ** C9 *)

(** C9, as stated, fails for the short aliases: [u] is a recognized key,
    it is present with the falsy value [""], its alias [username] is
    absent, and the validator returns no error. *)
Lemma short_alias_falsy_accepted :
  let o := object_literal [("u", VString [])] in
  hasOwnProperty o (js "u") = true
  ∧ truthy (get o (js "u")) = false
  ∧ hasOwnProperty o (js "username") = false
  ∧ (validate o ∅).2 = Returns None.
Proof. by vm_compute. Qed.

(** C9, amended: when the long name of a recognized option is present
    with a falsy value and its short alias is absent, the validator
    returns a [TypeError] with the message of a recognized option; with
    [{username: ""}] it is the message about the username and with
    [{username: "a", sort: false}] the one about the sort option; and
    whenever the long name's value is falsy the option resolves to the
    short alias's value, which a validation without error leaves in the
    canonical field. *)
Theorem long_name_falsy (o : value) (st : options) (f : option_spec) :
  isObject o = true →
  f ∈ recognized →
  hasOwnProperty o (long_name f) = true →
  truthy (get o (long_name f)) = false →
  (hasOwnProperty o (short_name f) = false →
   ∃ g, g ∈ recognized
     ∧ (validate o st).2 = Returns (Some (TypeError (type_message g))))
  ∧ alias o (long_name f) (short_name f) = get o (short_name f)
  ∧ ((validate o st).2 = Returns None →
     (validate o st).1 !! long_name f = Some (get o (short_name f)))
  ∧ (validate (object_literal [("username", VString [])]) st).2
    = Returns
        (Some (TypeError
                 (js "invalid option. Username must be a string primitive.")))
  ∧ (validate (object_literal [("username", VString (js "a"));
                               ("sort", VBool false)]) st).2
    = Returns
        (Some (TypeError
                 (js "invalid option. Sort option must be a boolean primitive."))).
Proof.
  intros Ho Hf Hlong Hfalsy.
  assert (alias o (long_name f) (short_name f) = get o (short_name f)) as Ha
    by (unfold alias, js_or; by rewrite Hfalsy).
  assert (present o f = true) as Hp by (unfold present; by rewrite Hlong).
  split; [|split; [done|split; [|split]]].
  - intros Hshort. rewrite validate_object_result by done.
    destruct (chain_fails o recognized st f Hf Hp) as (g & Hg & ->);
      [|by exists g].
    rewrite Ha. replace (get o (short_name f)) with VUndefined.
    { by apply recognized_reject_undefined. }
    destruct o as [| | | | |props|]; try done. cbn in Hshort |- *.
    apply bool_decide_eq_false_1 in Hshort.
    destruct (props !! short_name f); [|done]. by destruct Hshort.
  - intros Hok. destruct (validate o st) as [st' r] eqn:Hv.
    cbn [fst snd] in *. subst r.
    pose proof (validated_field o st st' f Ho Hv Hf) as Hfield.
    rewrite Hp in Hfield. destruct Hfield as [-> _]. by rewrite Ha.
  - rewrite validate_union. by vm_compute.
  - rewrite validate_union. by vm_compute.
Qed.

(** The theorem at [{username: ""}] and the username option. *)
Lemma long_name_falsy_witness :
  let o := object_literal [("username", VString [])] in
  let f := OptionSpec (js "username") (js "u") isString
             (js "invalid option. Username must be a string primitive.") in
  ∃ g, g ∈ recognized
    ∧ (validate o ∅).2 = Returns (Some (TypeError (type_message g))).
Proof.
  intros o f.
  refine (proj1 (long_name_falsy o ∅ f _ _ _ _) _).
  - reflexivity.
  - apply list_elem_of_here.
  - vm_compute. reflexivity.
  - vm_compute. reflexivity.
  - vm_compute. reflexivity.
Defined.

(* ===================================================================== *)
(** * Facts about the pipeline                                            *)
(* ===================================================================== *)

(** The options an invocation leaves behind are those the validator left. *)
Lemma module_exports_state w fuel o st :
  (module_exports w fuel o st).1 = (validate o st).1.
Proof.
  unfold module_exports.
  destruct (validate o st) as [st' [[e|]|e]]; [done| |done].
  repeat case_match; done.
Qed.


(** ** C10 *)

(** C10: the options an invocation of the exported function leaves behind
    are those the validator left; when the validator returns the
    [TypeError] of an option, the canonical field already holds the value
    that failed the type test; a field no present option names keeps the
    value it had before the invocation, and no field is ever removed, so
    what one invocation sets is there for the next. *)
Theorem validate_writes_before_checking
    (w : world) (fuel : nat) (o : value) (st : options) :
  let st' := (validate o st).1 in
  (module_exports w fuel o st).1 = st'
  ∧ (isObject o = true →
     ∀ e, (validate o st).2 = Returns (Some e) →
       ∃ f, f ∈ recognized
         ∧ e = TypeError (type_message f)
         ∧ st' !! long_name f = Some (alias o (long_name f) (short_name f))
         ∧ type_test f (alias o (long_name f) (short_name f)) = false)
  ∧ (∀ k, (∀ f, f ∈ recognized → long_name f = k → present o f = false) →
          st' !! k = st !! k)
  ∧ (∀ k, is_Some (st !! k) → is_Some (st' !! k)).
Proof.
  intros st'. subst st'. split; [apply module_exports_state|].
  split; [|split].
  - intros Ho e He. rewrite validate_object_state by done.
    rewrite validate_object_result in He by done. injection He as He.
    destruct (chain o recognized st) as [st' r] eqn:Hv. cbn [fst snd] in *.
    subst r. apply chain_error in Hv as (f & Hf & _ & H). by exists f.
  - intros k Hk. destruct (isObject o) eqn:Ho.
    + rewrite validate_object_state by done. by apply chain_frame.
    + by rewrite validate_not_object.
  - intros k Hk. rewrite validate_union. cbn [fst].
    apply lookup_union_is_Some. by right.
Qed.

(** The theorem at [{username: 5, token: "t"}], called with the field
    [repo] left by an earlier invocation: the call fails on the username,
    the number is in [options.username] all the same, the token was never
    looked at, and the old [repo] is still there. *)
Lemma validate_writes_before_checking_witness :
  let o := object_literal [("username", VNumber (js "5"));
                           ("token", VString (js "t"))] in
  let st := {[ js "repo" := VString (js "stars") ]} : options in
  let st' := (module_exports (mock_world mock_ghGot) 10 o st).1 in
  (validate o st).2
  = Returns
      (Some (TypeError
               (js "invalid option. Username must be a string primitive.")))
  ∧ st' !! js "username" = Some (VNumber (js "5"))
  ∧ st' !! js "token" = None
  ∧ st' !! js "repo" = Some (VString (js "stars")).
Proof.
  intros o st st'.
  destruct (validate_writes_before_checking (mock_world mock_ghGot) 10 o st)
    as (Hstate & Herr & Hframe & Hkeep).
  destruct (Herr eq_refl _ eq_refl) as (f & Hf & He & Hfield & Htest).
  subst st'. rewrite Hstate. by vm_compute.
Defined.

(** A stale flag: after a call with [{help: true}], which returns at once,
    a call with [{username: "octocat"}] still sees [help] and returns
    without a single request, while the same call in a fresh module
    fetches the four pages. *)
Lemma stale_help_flag :
  let w := mock_world mock_ghGot in
  let first := module_exports w 10 (object_literal [("help", VBool true)]) ∅ in
  let o := object_literal [("username", octocat)] in
  first.2 = Outcome [] None Returned
  ∧ (module_exports w 10 o first.1).2 = Outcome [] None Returned
  ∧ length (requests (module_exports w 10 o ∅).2) = 4.
Proof. by vm_compute. Qed.

(** ** C8 *)


(** ** C3 *)

(** C3, as stated, fails: with [repo] set, no token and [help: true] the
    exported function returns at the help branch; nothing is printed and
    the process does not exit. *)
Lemma repo_without_token_help_returns :
  let o := object_literal [("username", octocat);
                           ("repo", VString (js "my-stars"));
                           ("help", VBool true)] in
  hasOwnProperty o (js "repo") = true
  ∧ hasOwnProperty o (js "token") || hasOwnProperty o (js "t") = false
  ∧ (module_exports (mock_world mock_ghGot) 10 o ∅).2
    = Outcome [] None Returned.
Proof. by vm_compute. Qed.

Lemma isBoolean_not_true v :
  isBoolean v = true → v ≠ VBool true → truthy v = false.
Proof. destruct v as [| |[|]| | | |]; done. Qed.

Lemma isString_not_empty v :
  isString v = true → v ≠ VString [] → truthy v = true.
Proof. destruct v as [| | | |[|c s]| |]; done. Qed.

Lemma read_lookup (st st' : options) k k' :
  st' !! k' = st !! k → read st' k' = read st k.
Proof. unfold read. by intros ->. Qed.

(** What a validation without error says about the option [f]; the
    hypotheses [isObject o = true] and [validate o st = (st', Returns None)] are
    found in the context. *)
Ltac validated_option f H :=
  match goal with
  | Ho : isObject ?o = true, Hv : validate ?o ?st = (?st', Returns None) |- _ =>
      pose proof (validated_field o st st' f Ho Hv
                    ltac:(repeat constructor)) as H
  end.

(** The other ways past the token check: the version flag, a repository
    name that is the empty string, and a token left in the module's
    options by an earlier invocation. *)
Lemma repo_without_token_other_ways :
  let w := mock_world mock_ghGot in
  (module_exports w 10
     (object_literal [("username", octocat); ("repo", VString (js "my-stars"));
                      ("version", VBool true)]) ∅).2
  = Outcome [] None Returned
  ∧ length (requests (module_exports w 10
              (object_literal [("username", octocat); ("r", VString [])])
              ∅).2) = 4
  ∧ let earlier :=
      module_exports w 10
        (object_literal [("username", octocat); ("token", VString (js "t"))])
        ∅ in
    finish earlier.2 = Returned
    ∧ length (requests (module_exports w 10
                (object_literal [("username", octocat);
                                 ("repo", VString (js "my-stars"))])
                earlier.1).2) = 4.
Proof. by vm_compute. Qed.

(** C3, amended: for every configuration in which [repo] or [r] is present
    and does not resolve to the empty string, neither [token] nor [t] is
    present, and neither the help nor the version option resolves to
    [true], an invocation that finds no truthy token, help or version left
    in the module's options (the first invocation in particular) ends in
    [flashError]: a message on the error stream and exit status 1, without
    any request sent and without README.md written. *)
Theorem repo_without_token_is_fatal
    (w : world) (fuel : nat) (o : value) (st : options) :
  hasOwnProperty o (js "repo") || hasOwnProperty o (js "r") = true →
  hasOwnProperty o (js "token") || hasOwnProperty o (js "t") = false →
  alias o (js "repo") (js "r") ≠ VString [] →
  alias o (js "help") (js "h") ≠ VBool true →
  alias o (js "version") (js "v") ≠ VBool true →
  truthy (read st (js "token")) = false →
  truthy (read st (js "help")) = false →
  truthy (read st (js "version")) = false →
  ∃ stderr, (module_exports w fuel o st).2 = Outcome [] None (Exited stderr 1).
Proof.
  intros Hrepo Htoken Hrepo_ne Hhelp Hversion Hst_token Hst_help Hst_version.
  assert (isObject o = true) as Ho by (by destruct o).
  unfold module_exports.
  destruct (validate o st) as [st' [[e|]|e]] eqn:Hv; [by eexists| |].
  2: { rewrite validate_object in Hv by done. discriminate Hv. }
  assert (truthy (read st' (js "help")) = false) as ->.
  { validated_option (OptionSpec (js "help") (js "h") isBoolean
      (js "invalid option. Help option must be a boolean primitive.")) H.
    destruct (present _ _); cbn [long_name short_name type_test] in H.
    - destruct H as [H Hb]. unfold read. rewrite H.
      by apply isBoolean_not_true.
    - by rewrite (read_lookup st st' _ _ H). }
  assert (truthy (read st' (js "version")) = false) as ->.
  { validated_option (OptionSpec (js "version") (js "v") isBoolean
      (js "invalid option. Version option must be a boolean primitive.")) H.
    destruct (present _ _); cbn [long_name short_name type_test] in H.
    - destruct H as [H Hb]. unfold read. rewrite H.
      by apply isBoolean_not_true.
    - by rewrite (read_lookup st st' _ _ H). }
  assert (truthy (read st' (js "token")) = false) as ->.
  { validated_option (OptionSpec (js "token") (js "t") isString
      (js "invalid option. Token must be a string primitive.")) H.
    unfold present in H. cbn [long_name short_name] in H.
    rewrite Htoken in H. by rewrite (read_lookup st st' _ _ H). }
  assert (truthy (read st' (js "repo")) = true) as ->.
  { validated_option (OptionSpec (js "repo") (js "r") isString
      (js "invalid option. Repo name must be a string primitive.")) H.
    unfold present in H. cbn [long_name short_name type_test] in H.
    rewrite Hrepo in H. destruct H as [H Hs]. unfold read. rewrite H.
    by apply isString_not_empty. }
  destruct (truthy (read st' (js "username"))); by eexists.
Qed.

(** The theorem at [{username: "octocat", repo: "my-stars"}] in a fresh
    module. *)
Lemma repo_without_token_is_fatal_witness :
  ∃ stderr,
    (module_exports (mock_world mock_ghGot) 10
       (object_literal [("username", octocat);
                        ("repo", VString (js "my-stars"))]) ∅).2
    = Outcome [] None (Exited stderr 1).
Proof.
  apply repo_without_token_is_fatal; by vm_compute.
Defined.

(** ** C6 *)

(** C6 at a list of one item with the language [constructor]: the test
    [language in stargazed] finds the inherited property, no bucket is
    created, the call of [push] throws, and the run ends with a rejected
    promise after its one request, without a grouping and without a
    README. *)
Theorem aggregate_inherited_language_throws :
  language_key inherited_language_item ∈ Object_prototype
  ∧ aggregate [] [inherited_language_item]
    = inl (TypeError (js "stargazed[language].push is not a function"))
  ∧ (module_exports (mock_world inherited_ghGot) 10
       (object_literal [("username", octocat)]) ∅).2
    = Outcome [starred_url (js "octocat") 1] None
        (Rejected (TypeError (js "stargazed[language].push is not a function"))).
Proof.
  split; [|split].
  - by apply (bool_decide_unpack _).
  - by vm_compute.
  - by vm_compute.
Qed.

(* ===================================================================== *)
(** * Further properties of the validator                                 *)
(* ===================================================================== *)

Lemma check_spec_ext o1 o2 f st :
  present o1 f = present o2 f →
  alias o1 (long_name f) (short_name f) = alias o2 (long_name f) (short_name f) →
  check_spec o1 f st = check_spec o2 f st.
Proof. intros Hp Ha. rewrite !check_spec_unfold. by rewrite Hp, Ha. Qed.

(** Two inputs that every option of the table sees alike are validated
    alike. *)
Lemma chain_ext o1 o2 fs st :
  (∀ f, f ∈ fs →
     present o1 f = present o2 f
     ∧ alias o1 (long_name f) (short_name f)
       = alias o2 (long_name f) (short_name f)) →
  chain o1 fs st = chain o2 fs st.
Proof.
  revert st. induction fs as [|f fs IH]; intros st H; [done|].
  destruct (H f) as [Hp Ha]; [left|].
  rewrite !chain_cons, (check_spec_ext o1 o2 f st Hp Ha).
  destruct (check_spec o2 f st) as [st' [e|]]; [done|].
  apply IH. intros g Hg. apply H. by right.
Qed.

Lemma same_lookups_same_option (props1 props2 : gmap jsstring value) f :
  props1 !! long_name f = props2 !! long_name f →
  props1 !! short_name f = props2 !! short_name f →
  present (VObject props1) f = present (VObject props2) f
  ∧ alias (VObject props1) (long_name f) (short_name f)
    = alias (VObject props2) (long_name f) (short_name f).
Proof.
  unfold present, alias, hasOwnProperty, get. by intros -> ->.
Qed.

Lemma recognized_names_elem f :
  f ∈ recognized →
  long_name f ∈ recognized_names ∧ short_name f ∈ recognized_names.
Proof.
  intros Hf. unfold recognized_names.
  split; apply list_elem_of_bind; exists f; (split; [|done]).
  - left.
  - right. left.
Qed.

(** A short alias is the name of no other option and of no long name. *)
Lemma short_name_apart f g :
  f ∈ recognized → g ∈ recognized →
  long_name g ≠ short_name f ∧ (short_name g = short_name f → g = f).
Proof.
  intros Hf Hg. revert g Hg. apply Forall_forall.
  revert f Hf. apply Forall_forall. unfold recognized.
  repeat constructor;
    first [ by vm_compute
          | intros _; reflexivity
          | intros H; by vm_compute in H ].
Qed.

Lemma chain_app o fs1 fs2 st :
  chain o (fs1 ++ fs2) st
  = match chain o fs1 st with
    | (st', None) => chain o fs2 st'
    | (st', Some e) => (st', Some e)
    end.
Proof.
  revert st. induction fs1 as [|f fs1 IH]; intros st; [done|].
  cbn [app]. rewrite !chain_cons.
  destruct (check_spec o f st) as [st' [e|]]; [done|]. apply IH.
Qed.

(** When every present option has the right type, the validator returns
    no error. *)
Lemma chain_passes o fs st :
  (∀ f, f ∈ fs → present o f = true →
        type_test f (alias o (long_name f) (short_name f)) = true) →
  (chain o fs st).2 = None.
Proof.
  intros H. destruct (chain o fs st) as [st' [e|]] eqn:Hc; [|done].
  apply chain_error in Hc as (f & Hf & Hp & _ & _ & Ht).
  rewrite (H f Hf Hp) in Ht. done.
Qed.

(** ** X1 *)

(** X1: a key outside the fourteen recognized names is never looked at:
    setting it to any value, or removing it, changes neither the error the
    validator returns nor the options it leaves. *)
Theorem validate_ignores_unrecognized
    (props : gmap jsstring value) (k : jsstring) (v : value) (st : options) :
  k ∉ recognized_names →
  validate (VObject (<[k := v]> props)) st = validate (VObject props) st
  ∧ validate (VObject (delete k props)) st = validate (VObject props) st.
Proof.
  intros Hk.
  assert (∀ f, f ∈ recognized → long_name f ≠ k ∧ short_name f ≠ k) as Hne.
  { intros f [Hl Hs]%recognized_names_elem. split; by intros <-. }
  rewrite !validate_object by done. unfold returning.
  split; (erewrite chain_ext; [reflexivity|]);
    intros f Hf; destruct (Hne f Hf) as [Hl Hs];
    apply same_lookups_same_option.
  - by rewrite lookup_insert_ne.
  - by rewrite lookup_insert_ne.
  - by rewrite lookup_delete_ne.
  - by rewrite lookup_delete_ne.
Qed.

(** The theorem at the key [color]. *)
Lemma validate_ignores_unrecognized_witness :
  let props : gmap jsstring value :=
    {[ js "username" := VString (js "octocat") ]} in
  validate (VObject (<[js "color" := VBool true]> props)) ∅
  = validate (VObject props) ∅
  ∧ validate (VObject (delete (js "color") props)) ∅
    = validate (VObject props) ∅.
Proof.
  intros props. apply validate_ignores_unrecognized.
  apply not_elem_of_decide. vm_compute. reflexivity.
Defined.

(** ** X2 *)

(** X2: for an object, the validator returns no error exactly when every
    option that is present resolves to a value of its type; the options it
    then leaves hold the resolved value of each present option, and are
    unchanged everywhere else. *)
Theorem validate_passes_iff (o : value) (st : options) :
  isObject o = true →
  ((validate o st).2 = Returns None
   ↔ ∀ f, f ∈ recognized → present o f = true →
          type_test f (alias o (long_name f) (short_name f)) = true)
  ∧ ((validate o st).2 = Returns None →
     (∀ f, f ∈ recognized →
        (validate o st).1 !! long_name f
        = if present o f
          then Some (alias o (long_name f) (short_name f))
          else st !! long_name f)
     ∧ (∀ k, k ∉ long_name <$> recognized →
             (validate o st).1 !! k = st !! k)).
Proof.
  intros Ho. split; [split|].
  - intros Hok f Hf Hp. destruct (validate o st) as [st' r] eqn:Hv.
    cbn [snd] in Hok. subst r.
    pose proof (validated_field o st st' f Ho Hv Hf) as H.
    rewrite Hp in H. by destruct H.
  - intros H. rewrite validate_object_result by done. f_equal.
    by apply chain_passes.
  - intros Hok. destruct (validate o st) as [st' r] eqn:Hv.
    cbn [fst snd] in *. subst r. split.
    + intros f Hf. pose proof (validated_field o st st' f Ho Hv Hf) as H.
      destruct (present o f); [by destruct H | done].
    + intros k Hk. apply validate_returns in Hv; [|done].
      replace st' with (chain o recognized st).1 by (by rewrite Hv).
      apply chain_frame. intros f Hf <-. destruct Hk.
      by apply list_elem_of_fmap_2.
Qed.

(** The theorem at [{username: "octocat", s: true}]. *)
Lemma validate_passes_iff_witness :
  let o := object_literal [("username", octocat); ("s", VBool true)] in
  (validate o ∅).2 = Returns None
  ∧ (validate o ∅).1 !! js "sort" = Some (VBool true)
  ∧ (validate o ∅).1 !! js "token" = None.
Proof.
  intros o.
  destruct (validate_passes_iff o ∅ eq_refl) as [Hiff Hstate].
  assert ((validate o ∅).2 = Returns None) as Hok by (vm_compute; reflexivity).
  destruct (Hstate Hok) as [Hfields _].
  split; [exact Hok|]. split.
  - etrans.
    { apply (Hfields (OptionSpec (js "sort") (js "s") isBoolean
        (js "invalid option. Sort option must be a boolean primitive."))).
      repeat constructor. }
    vm_compute. reflexivity.
  - etrans.
    { apply (Hfields (OptionSpec (js "token") (js "t") isString
        (js "invalid option. Token must be a string primitive."))).
      repeat constructor. }
    vm_compute. reflexivity.
Defined.

(** ** X3 *)

(** X3: the validator stops at the first option, in the order of the
    source, whose resolved value has the wrong type: it returns that
    option's error, the option's canonical field holds the rejected value,
    and the canonical fields of the options after it are not touched,
    whatever the input holds for them. *)
Theorem validate_stops_at_first_error
    (o : value) (st : options) (before after : list option_spec)
    (f : option_spec) :
  isObject o = true →
  recognized = before ++ f :: after →
  (∀ g, g ∈ before → present o g = true →
        type_test g (alias o (long_name g) (short_name g)) = true) →
  present o f = true →
  type_test f (alias o (long_name f) (short_name f)) = false →
  (validate o st).2 = Returns (Some (TypeError (type_message f)))
  ∧ (validate o st).1 !! long_name f
    = Some (alias o (long_name f) (short_name f))
  ∧ (∀ g, g ∈ after → (validate o st).1 !! long_name g = st !! long_name g).
Proof.
  intros Ho Hrec Hbefore Hp Ht.
  pose proof recognized_NoDup as Hnd. rewrite Hrec, fmap_app, fmap_cons in Hnd.
  apply NoDup_app in Hnd as (_ & Hapart & [Hf _]%NoDup_cons).
  rewrite validate_object by done. unfold returning.
  rewrite Hrec, chain_app.
  pose proof (chain_passes o before st Hbefore) as Hok.
  pose proof (chain_frame o before st) as Hframe.
  destruct (chain o before st) as [st1 r]. cbn [fst snd] in *. subst r.
  rewrite chain_cons, check_spec_unfold, Hp, Ht. cbn [fst snd].
  split; [done|]. split; [by rewrite lookup_insert_eq|].
  intros g Hg. rewrite lookup_insert_ne.
  - apply Hframe. intros h Hh E. destruct (Hapart (long_name h)).
    + by apply list_elem_of_fmap_2.
    + right. rewrite E. by apply list_elem_of_fmap_2.
  - intros E. destruct Hf. rewrite E. by apply list_elem_of_fmap_2.
Qed.

(** The theorem at [{username: "octocat", token: 5, repo: 7}]: the error
    is the token's, and [options.repo] is never written. *)
Lemma validate_stops_at_first_error_witness :
  let o := object_literal [("username", octocat);
                           ("token", VNumber (js "5"));
                           ("repo", VNumber (js "7"))] in
  (validate o ∅).2
  = Returns
      (Some (TypeError (js "invalid option. Token must be a string primitive.")))
  ∧ (validate o ∅).1 !! js "token" = Some (VNumber (js "5"))
  ∧ (validate o ∅).1 !! js "repo" = None.
Proof.
  intros o.
  destruct (validate_stops_at_first_error o ∅ [username_option]
              (drop 2 recognized)
              (OptionSpec (js "token") (js "t") isString
                 (js "invalid option. Token must be a string primitive.")))
    as (Herr & Hfield & Hafter).
  - reflexivity.
  - reflexivity.
  - intros g ->%list_elem_of_singleton _. vm_compute. reflexivity.
  - vm_compute. reflexivity.
  - vm_compute. reflexivity.
  - split; [exact Herr|]. split; [exact Hfield|].
    apply (Hafter (OptionSpec (js "repo") (js "r") isString
             (js "invalid option. Repo name must be a string primitive."))).
    left.
Defined.

(** ** X4 *)

(** X4: whether the validator accepts an input, and with which error it
    rejects it, does not depend on what the module's options hold; the
    options it leaves are the fields it writes for this input laid over
    the options it found. *)
Theorem validate_verdict_ignores_options (o : value) (st1 st2 : options) :
  (validate o st1).2 = (validate o st2).2
  ∧ (validate o st1).1 = (validate o ∅).1 ∪ st1
  ∧ (validate o ∅).1 ⊆ (validate o st1).1.
Proof.
  rewrite (validate_union o st1), (validate_union o st2). cbn [fst snd].
  split; [done|]. split; [done|]. apply map_union_subseteq_l.
Qed.

(** ** X5 *)

(** An array of primitives converts to a string. *)
Lemma to_string_array_primitive elems :
  Forall (λ e, primitive e = true) elems → is_Some (to_string (VArray elems)).
Proof.
  intros H. cbn [to_string]. apply fmap_is_Some.
  induction H as [|e elems He _ IH]; [by eexists|].
  destruct IH as [parts ->].
  destruct e as [| |[|]| | | |]; try done; by eexists.
Qed.

(** X5: an input that is not an object ([undefined], [null], a boolean, a
    number, a string or an array) is rejected before any option is looked
    at: the module's options stay as they were and no request is sent.
    When the input converts to a string, as every primitive and every
    array of primitives does, the run prints the [TypeError] that quotes
    the input and exits with status 1; when the conversion throws, the
    promise is rejected with the error of the conversion and nothing is
    printed. *)
Theorem non_object_input_is_fatal
    (w : world) (fuel : nat) (o : value) (st : options) :
  isObject o = false →
  module_exports w fuel o st
  = (st, Outcome [] None
           match to_string o with
           | Some text =>
               Exited
                 (flash_text
                    (js "TypeError: invalid input argument. Options argument must be an object. Value: `"
                     ++ text ++ js "`."))
                 1
           | None => Rejected cannot_convert
           end)
  ∧ ((∀ elems, o = VArray elems → Forall (λ e, primitive e = true) elems) →
     is_Some (to_string o)).
Proof.
  intros Ho. split.
  - unfold module_exports. rewrite validate_not_object by done.
    unfold not_an_object. by destruct (to_string o).
  - intros Hprim. destruct o as [| |[|]| | | |elems]; try by eauto.
    by apply to_string_array_primitive, Hprim.
Qed.

(** The theorem at the array [["octocat"]]. *)
Lemma non_object_input_is_fatal_witness :
  module_exports (mock_world mock_ghGot) 10 (VArray [octocat])
    {[ js "token" := VString (js "t") ]}
  = ({[ js "token" := VString (js "t") ]},
     Outcome [] None
       (Exited
          (flash_text
             (js "TypeError: invalid input argument. Options argument must be an object. Value: `octocat`."))
          1)).
Proof.
  apply (proj1 (non_object_input_is_fatal (mock_world mock_ghGot) 10
                  (VArray [octocat]) _ eq_refl)).
Defined.

(** An input whose conversion throws: the array holding an object with an
    own property [toString]. The run prints nothing and the promise is
    rejected. *)
Lemma inconvertible_input_rejects :
  let o := VArray [object_literal [("toString", VString (js "x"))]] in
  to_string o = None
  ∧ validate o ∅ = (∅, Throws cannot_convert)
  ∧ module_exports (mock_world mock_ghGot) 10 o ∅
    = (∅, Outcome [] None (Rejected cannot_convert)).
Proof. by vm_compute. Qed.

(** ** X6 *)

(** X6: once the long name of an option carries a truthy value, its short
    alias is never read: whatever value the short alias is given, of the
    right type or not, the validator returns the same error and leaves the
    same options. *)
Theorem short_alias_unread_when_long_truthy
    (props : gmap jsstring value) (f : option_spec) (v : value)
    (st : options) :
  f ∈ recognized →
  truthy (get (VObject props) (long_name f)) = true →
  validate (VObject (<[short_name f := v]> props)) st
  = validate (VObject props) st.
Proof.
  intros Hf Hlong.
  assert (is_Some (props !! long_name f)) as Hsome.
  { cbn [get] in Hlong. by destruct (props !! long_name f). }
  destruct (short_name_apart f f Hf Hf) as [Hlf _].
  rewrite !validate_object by done. unfold returning.
  erewrite chain_ext; [reflexivity|]. intros g Hg.
  destruct (short_name_apart f g Hf Hg) as [Hl Hs].
  destruct (decide (short_name g = short_name f)) as [E|Hne].
  - rewrite (Hs E). unfold present, alias, js_or, hasOwnProperty, get.
    rewrite lookup_insert_ne by done.
    rewrite (bool_decide_eq_true_2 _ Hsome). cbn [orb].
    cbn [get] in Hlong. by rewrite Hlong.
  - apply same_lookups_same_option; by rewrite lookup_insert_ne.
Qed.

(** The theorem at [{username: "octocat"}] and the short alias [u] set to a
    number. *)
Lemma short_alias_unread_when_long_truthy_witness :
  let props : gmap jsstring value := {[ js "username" := octocat ]} in
  validate (VObject (<[js "u" := VNumber (js "5")]> props)) ∅
  = validate (VObject props) ∅.
Proof.
  intros props.
  apply (short_alias_unread_when_long_truthy props username_option).
  - left.
  - vm_compute. reflexivity.
Defined.

(* ===================================================================== *)
(** * Further properties of the escaping and of the rows                  *)
(* ===================================================================== *)

Lemma htmlEscape_app a b : htmlEscape (a ++ b) = htmlEscape a ++ htmlEscape b.
Proof. rewrite !htmlEscape_flat_map. apply flat_map_app. Qed.

Lemma htmlEscape_fixed s : 60%N ∉ s → 62%N ∉ s → htmlEscape s = s.
Proof.
  induction s as [|c s IH]; [done|].
  intros [H1 H1']%not_elem_of_cons [H2 H2']%not_elem_of_cons.
  rewrite htmlEscape_cons, IH by done. unfold escape_unit.
  apply not_eq_sym, N.eqb_neq in H1, H2. by rewrite H1, H2.
Qed.

Lemma occurrences_app c a b :
  occurrences c (a ++ b) = occurrences c a + occurrences c b.
Proof. unfold occurrences. by rewrite filter_app, length_app. Qed.

Lemma occurrences_cons c x s :
  occurrences c (x :: s)
  = (if decide (x = c) then 1 else 0) + occurrences c s.
Proof.
  unfold occurrences. rewrite filter_cons. by destruct (decide (x = c)).
Qed.

Lemma occurrences_zero c s : occurrences c s = 0 ↔ c ∉ s.
Proof.
  induction s as [|x s IH]; [by split; [intros _; apply not_elem_of_nil|]|].
  rewrite occurrences_cons, not_elem_of_cons.
  destruct (decide (x = c)) as [->|Hne]; [split; [done | by intros [? _]]|].
  cbn [Nat.add]. rewrite IH. split; [by intros ?; split | by intros [_ ?]].
Qed.

Lemma length_escape_unit c :
  length (escape_unit c)
  = 1 + 3 * ((if decide (c = 60%N) then 1 else 0)
             + (if decide (c = 62%N) then 1 else 0)).
Proof.
  unfold escape_unit.
  destruct (decide (c = 60%N)) as [->|H1]; [done|].
  destruct (decide (c = 62%N)) as [->|H2]; [done|].
  apply N.eqb_neq in H1, H2. by rewrite H1, H2.
Qed.

(** A code unit other than the brackets and the letters of the two
    entities occurs in the escaped string as often as in the string. *)
Lemma occurrences_htmlEscape c s :
  c ≠ 60%N → c ≠ 62%N → c ∉ js "&lt;" → c ∉ js "&gt;" →
  occurrences c (htmlEscape s) = occurrences c s.
Proof.
  intros H60 H62 Hlt Hgt. induction s as [|x s IH]; [done|].
  rewrite htmlEscape_cons, occurrences_app, occurrences_cons, IH. f_equal.
  unfold escape_unit.
  destruct (x =? 60)%N eqn:H1; [|destruct (x =? 62)%N eqn:H2].
  - apply N.eqb_eq in H1 as ->. apply occurrences_zero in Hlt as ->.
    by rewrite decide_False.
  - apply N.eqb_eq in H2 as ->. apply occurrences_zero in Hgt as ->.
    by rewrite decide_False.
  - by rewrite occurrences_cons.
Qed.

(** ** X7 *)

(** X7: escaping works code unit by code unit, so it distributes over
    concatenation; since [&] itself is not escaped, escaping an escaped
    string changes nothing more; and the result is longer than the string
    by three code units for every angle bracket. *)
Theorem htmlEscape_algebra (a b : jsstring) :
  htmlEscape (a ++ b) = htmlEscape a ++ htmlEscape b
  ∧ htmlEscape (htmlEscape a) = htmlEscape a
  ∧ length (htmlEscape a)
    = length a + 3 * (occurrences 60 a + occurrences 62 a).
Proof.
  split; [apply htmlEscape_app|]. split.
  - apply htmlEscape_fixed; intros H; by destruct (htmlEscape_no_angle _ _ H).
  - induction a as [|c a IH]; [done|].
    rewrite htmlEscape_cons, length_app, IH, length_escape_unit.
    rewrite !occurrences_cons. cbn [length]. lia.
Qed.

(** A one-character string pattern: either the character does not occur
    and the string is returned as it is, or its first occurrence, and only
    that one, is replaced. *)
Lemma replace_first_unit c rep s :
  ((c ∉ s) ∧ replace_first [c] rep s = s)
  ∨ (∃ a b, s = a ++ c :: b ∧ (c ∉ a)
       ∧ replace_first [c] rep s = a ++ rep ++ b).
Proof.
  induction s as [|x s IH].
  - left. split; [apply not_elem_of_nil | done].
  - cbn [replace_first starts_with]. rewrite andb_true_r.
    destruct (x =? c)%N eqn:E.
    + apply N.eqb_eq in E as ->. right. exists [], s.
      split; [done|]. split; [apply not_elem_of_nil | done].
    + apply N.eqb_neq in E.
      change (match s with [] => [] | c0 :: s' => c0 :: replace_first [c] rep s' end)
        with (replace_first [c] rep s) in *.
      destruct IH as [[Hs ->] | (a & b & -> & Ha & ->)].
      * left. split; [|done]. by apply not_elem_of_cons.
      * right. exists (x :: a), b. split; [done|].
        split; [by apply not_elem_of_cons | done].
Qed.

Lemma escape_description_Some d :
  escape_description (Some d) = replace_first [10%N] [] (htmlEscape d).
Proof. by destruct d. Qed.

(** ** X8 *)

(** X8: of the newlines of a description only the first is removed: the
    description handed to [trim] is the escaped description without its
    first newline, so it holds one newline less than the description, or
    none if there was none. *)
Theorem escape_description_first_newline (d : jsstring) :
  occurrences 10 (escape_description (Some d)) = pred (occurrences 10 d)
  ∧ (((10%N ∉ d) ∧ escape_description (Some d) = htmlEscape d)
     ∨ ∃ a b, htmlEscape d = a ++ 10%N :: b ∧ (10%N ∉ a)
         ∧ escape_description (Some d) = a ++ b).
Proof.
  rewrite escape_description_Some.
  assert (occurrences 10 (htmlEscape d) = occurrences 10 d) as Hocc.
  { apply occurrences_htmlEscape; try done; by apply not_elem_of_decide. }
  destruct (replace_first_unit 10 [] (htmlEscape d))
    as [[Hno ->] | (a & b & E & Ha & ->)].
  - apply occurrences_zero in Hno. rewrite Hocc in Hno.
    split; [by rewrite Hocc, Hno|]. left. split; [|done].
    by apply occurrences_zero.
  - split; [|right; by exists a, b].
    rewrite <- Hocc, E, !occurrences_app, occurrences_cons.
    cbn [app]. rewrite decide_True by done.
    apply occurrences_zero in Ha. rewrite Ha. cbn. done.
Qed.

Lemma trim_start_split s :
  ∃ lead, s = lead ++ trim_start s
    ∧ Forall (λ c, is_white_space c = true) lead.
Proof.
  induction s as [|c s (lead & E & Hl)]; [by exists []|].
  cbn [trim_start]. destruct (is_white_space c) eqn:Hc.
  - exists (c :: lead). split; [by rewrite E at 1 | by constructor].
  - by exists [].
Qed.

Lemma trim_start_head s :
  from_option is_white_space false (head (trim_start s)) = false.
Proof.
  induction s as [|c s IH]; [done|]. cbn [trim_start].
  by destruct (is_white_space c) eqn:Hc.
Qed.

Lemma trim_end_split s :
  ∃ trail, s = trim_end s ++ trail
    ∧ Forall (λ c, is_white_space c = true) trail.
Proof.
  destruct (trim_start_split (reverse s)) as (lead & E & Hl).
  exists (reverse lead). split; [|by apply Forall_reverse].
  unfold trim_end. rewrite <- reverse_app, <- E. by rewrite reverse_involutive.
Qed.

Lemma trim_end_last s :
  from_option is_white_space false (last (trim_end s)) = false.
Proof. unfold trim_end. rewrite last_reverse. apply trim_start_head. Qed.

(** [trim] takes white space, and nothing else, off both ends. *)
Lemma trim_split s :
  ∃ lead trail, s = lead ++ trim s ++ trail
    ∧ Forall (λ c, is_white_space c = true) lead
    ∧ Forall (λ c, is_white_space c = true) trail
    ∧ from_option is_white_space false (head (trim s)) = false
    ∧ from_option is_white_space false (last (trim s)) = false.
Proof.
  destruct (trim_start_split s) as (lead & E1 & Hl).
  destruct (trim_end_split (trim_start s)) as (trail & E2 & Ht).
  exists lead, trail. unfold trim.
  split; [by rewrite <- E2|]. split; [done|]. split; [done|].
  split; [|apply trim_end_last].
  pose proof (trim_start_head s) as Hh. rewrite E2 in Hh.
  by destruct (trim_end (trim_start s)).
Qed.

(** ** X9 *)

(** X9: the description of every row is the escaped description without
    its first newline, with white space, and nothing but white space,
    taken off both ends: it neither starts nor ends with white space and
    it holds no raw [<] or [>]. *)
Theorem row_description_clean (it : item) :
  let d := (row it).2 in
  (60%N ∉ d) ∧ (62%N ∉ d)
  ∧ from_option is_white_space false (head d) = false
  ∧ from_option is_white_space false (last d) = false
  ∧ ∃ lead trail,
      escape_description (description it) = lead ++ d ++ trail
      ∧ Forall (λ c, is_white_space c = true) lead
      ∧ Forall (λ c, is_white_space c = true) trail.
Proof.
  intros d. subst d. unfold row. cbn [snd].
  destruct (trim_split (escape_description (description it)))
    as (lead & trail & E & Hl & Ht & Hh & Hla).
  assert (∀ x, x ∈ escape_description (description it) →
               x ≠ 60%N ∧ x ≠ 62%N) as Hclean.
  { intros x Hx. destruct (description it) as [desc|];
      [|by apply elem_of_nil in Hx].
    rewrite escape_description_Some in Hx.
    apply (htmlEscape_no_angle desc).
    destruct (replace_first_unit 10 [] (htmlEscape desc))
      as [[_ Hr] | (a & b & Hs & _ & Hr)]; rewrite Hr in Hx; [done|].
    rewrite Hs. rewrite !elem_of_app in *. rewrite elem_of_cons.
    destruct Hx as [?|[Hx|?]]; [by left | by apply elem_of_nil in Hx |].
    right. by right. }
  assert (∀ x, x ∈ trim (escape_description (description it)) →
               x ≠ 60%N ∧ x ≠ 62%N) as Htrim.
  { intros x Hx. apply Hclean. rewrite E, !elem_of_app. right. by left. }
  split; [intros H; by destruct (Htrim _ H)|].
  split; [intros H; by destruct (Htrim _ H)|].
  split; [done|]. split; [done|]. by exists lead, trail.
Qed.

(* ===================================================================== *)
(** * Further properties of the fetcher                                   *)
(* ===================================================================== *)

Lemma js_inj s1 s2 : js s1 = js s2 → s1 = s2.
Proof.
  unfold js. intros H.
  assert (Inj (=) (=) (λ a, N_of_ascii a)) as Hinj.
  { intros a b E. by rewrite <- (ascii_N_embedding a), E, ascii_N_embedding. }
  apply (inj (fmap _)) in H.
  rewrite <- (String.string_of_list_ascii_of_string s1), H.
  apply String.string_of_list_ascii_of_string.
Qed.

(** Different pages have different URLs. *)
Lemma starred_url_inj username : Inj (=) (=) (starred_url username).
Proof.
  intros p q H. unfold starred_url, decimal in H.
  do 3 apply app_inv_head in H. by apply js_inj, (inj pretty) in H.
Qed.

Lemma pages_from_S page n :
  pages_from page (S n) = page :: pages_from (page + 1) n.
Proof.
  unfold pages_from. cbn [seq fmap list_fmap]. f_equal; [f_equal; lia|].
  rewrite <- fmap_S_seq, <- list_fmap_compose.
  apply list_fmap_ext. intros i x _. cbn. lia.
Qed.

Lemma length_pages_from page n : length (pages_from page n) = n.
Proof. unfold pages_from. by rewrite length_fmap, length_seq. Qed.

Lemma pages_from_NoDup page n : NoDup (pages_from page n).
Proof.
  unfold pages_from. apply NoDup_fmap_2; [|apply NoDup_seq].
  intros i j H. lia.
Qed.

Section LoopPages.

Context (ghGot : jsstring → value → fetched)
  (username : jsstring) (_options : value).

Implicit Types (fuel : nat) (page : N) (acc : list item).

#[local] Abbreviation answers := (answers ghGot username _options).

(** ** X10 *)

(** X10: for any number of pages: when the pages from [page] on answer
    with the responses [rs], all but the last of which make the loop go
    on, the loop, given a round of fuel per page, requests exactly these
    pages in order and returns what it had accumulated followed by the
    bodies of all the pages in order. *)
Theorem loop_all_pages (rs : list response) fuel page acc :
  rs ≠ [] →
  (∀ i r, rs !! i = Some r →
          answers page i r (bool_decide (S i < length rs))) →
  length rs ≤ fuel →
  loop fuel ghGot username _options page acc
  = (starred_url username <$> pages_from page (length rs),
     Listed (acc ++ concat (body <$> rs))).
Proof.
  revert fuel page acc.
  induction rs as [|r rs IH]; intros fuel page acc Hne Hrs Hfuel; [done|].
  destruct fuel as [|fuel]; [cbn in Hfuel; lia|].
  destruct (Hrs 0 r eq_refl) as [Hr Hn].
  rewrite N.add_0_r in Hr. cbn [length] in *. rewrite pages_from_S.
  destruct rs as [|r' rs].
  - rewrite (loop_last _ _ _ _ _ _ _ Hr Hn). cbn. by rewrite app_nil_r.
  - rewrite bool_decide_eq_true_2 in Hn by (cbn; lia).
    rewrite (loop_next _ _ _ _ _ _ _ Hr Hn).
    rewrite (IH fuel (page + 1)%N (acc ++ body r)); [| done | | cbn in *; lia].
    + cbn [fst snd fmap list_fmap concat]. by rewrite <- app_assoc.
    + intros i x Hx. destruct (Hrs (S i) x Hx) as [Hx1 Hx2].
      split.
      * rewrite <- Hx1. f_equal. f_equal. lia.
      * rewrite Hx2. apply bool_decide_ext. cbn [length]. lia.
Qed.

(** ** X11 *)

(** X11: whatever the endpoint answers, the loop asks for consecutive
    pages starting at [page], never for the same URL twice, and for at
    most as many as it has fuel. *)
Theorem loop_requests_consecutive fuel page acc :
  let sent := (loop fuel ghGot username _options page acc).1 in
  sent = starred_url username <$> pages_from page (length sent)
  ∧ NoDup sent
  ∧ length sent ≤ fuel.
Proof.
  intros sent.
  assert (sent = starred_url username <$> pages_from page (length sent)
          ∧ length sent ≤ fuel) as [E Hlen].
  { subst sent. revert page acc.
    induction fuel as [|fuel IH]; intros page acc; [done|].
    rewrite loop_S. destruct (ghGot _ _) as [r|e].
    - destruct (has_next (link r)).
      + destruct (IH (page + 1)%N (acc ++ body r)) as [E Hlen].
        cbn [fst length]. rewrite pages_from_S, fmap_cons, <- E.
        split; [done | lia].
      + cbn [fst length]. rewrite pages_from_S. split; [done | lia].
    - cbn [fst length]. rewrite pages_from_S. split; [done | lia]. }
  split; [done|]. split; [|done]. rewrite E.
  apply NoDup_fmap_2; [apply starred_url_inj | apply pages_from_NoDup].
Qed.

(** ** X12 *)

(** X12: what the loop returns is explained by the answers it got. A list
    is what was accumulated followed by the bodies of the requested pages,
    all of which were fulfilled and all but the last of which advertised a
    next page. An error message is that of the page that failed, after
    fulfilled pages that all advertised a next page: what they carried is
    dropped. And the loop is only left running when every round of fuel
    met a page that advertised a next one. *)
Theorem loop_result_sound fuel page acc :
  let sent := (loop fuel ghGot username _options page acc).1 in
  match (loop fuel ghGot username _options page acc).2 with
  | Listed list =>
      ∃ rs, length sent = length rs ∧ rs ≠ []
        ∧ (∀ i r, rs !! i = Some r →
                  answers page i r (bool_decide (S i < length rs)))
        ∧ list = acc ++ concat (body <$> rs)
  | Flashed stderr =>
      ∃ rs err, length sent = S (length rs)
        ∧ (∀ i r, rs !! i = Some r → answers page i r true)
        ∧ ghGot (starred_url username (page + N.of_nat (length rs))) _options
          = Failed err
        ∧ stderr = flash_text (error_to_string err)
  | Suspended =>
      ∃ rs, length sent = fuel ∧ length rs = fuel
        ∧ (∀ i r, rs !! i = Some r → answers page i r true)
  end.
Proof.
  revert page acc. induction fuel as [|fuel IH]; intros page acc sent.
  { by exists []. }
  subst sent. rewrite loop_S.
  destruct (ghGot (starred_url username page) _options) as [r|e] eqn:Hr.
  - destruct (has_next (link r)) eqn:Hn.
    + specialize (IH (page + 1)%N (acc ++ body r)). cbn zeta in IH.
      cbn [fst snd length].
      assert (∀ rs more,
        (∀ i x, rs !! i = Some x → answers (page + 1) i x (more i)) →
        ∀ i x, (r :: rs) !! i = Some x →
               answers page i x (match i with 0 => true | S j => more j end))
        as Hshift.
      { intros rs more H [|i] x Hx.
        - injection Hx as <-. split; [by rewrite N.add_0_r | done].
        - destruct (H i x Hx) as [H1 H2]. split; [|done].
          rewrite <- H1. f_equal. f_equal. lia. }
      destruct (loop fuel ghGot username _options (page + 1) (acc ++ body r)).2
        as [list|stderr|].
      * destruct IH as (rs & Hlen & Hne & Hrs & ->).
        exists (r :: rs). split; [cbn; lia|]. split; [done|]. split.
        -- intros i x Hx.
           pose proof (Hshift rs _ Hrs i x Hx) as [H1 H2]. split; [done|].
           rewrite H2. destruct i as [|i].
           ++ symmetry. apply bool_decide_eq_true_2. cbn.
              destruct rs; [done | cbn; lia].
           ++ apply bool_decide_ext. cbn [length]. lia.
        -- cbn [fmap list_fmap concat]. by rewrite <- app_assoc.
      * destruct IH as (rs & err & Hlen & Hrs & Herr & ->).
        exists (r :: rs), err. split; [cbn; lia|]. split.
        -- intros i x Hx.
           pose proof (Hshift rs (λ _, true) Hrs i x Hx) as [H1 H2].
           split; [done|]. rewrite H2. by destruct i.
        -- split; [|done]. rewrite <- Herr. f_equal. f_equal. cbn [length]. lia.
      * destruct IH as (rs & Hlen & Hlen' & Hrs).
        exists (r :: rs). split; [cbn; lia|]. split; [cbn; lia|].
        intros i x Hx.
        pose proof (Hshift rs (λ _, true) Hrs i x Hx) as [H1 H2].
        split; [done|]. rewrite H2. by destruct i.
    + cbn [fst snd]. exists [r]. split; [done|]. split; [done|]. split.
      * intros [|i] x Hx; [|done]. injection Hx as <-.
        split; [by rewrite N.add_0_r | done].
      * cbn. by rewrite app_nil_r.
  - cbn [fst snd]. exists [], e. split; [done|]. split; [done|].
    split; [by rewrite N.add_0_r | done].
Qed.

End LoopPages.

(** The theorem at the four pages of the mock endpoint. *)
Lemma loop_all_pages_witness :
  loop 4 mock_ghGot (js "octocat") (VObject ∅) 1 []
  = (starred_url (js "octocat") <$> pages_from 1 4,
     Listed ([] ++ concat (body <$>
        [ Response (mock_page 1 100) (mock_link_more 1);
          Response (mock_page 101 100) (mock_link_more 2);
          Response (mock_page 201 100) (mock_link_more 3);
          Response (mock_page 301 1) mock_link_done ]))).
Proof.
  apply (loop_all_pages mock_ghGot (js "octocat") (VObject ∅)
           [ Response (mock_page 1 100) (mock_link_more 1);
             Response (mock_page 101 100) (mock_link_more 2);
             Response (mock_page 201 100) (mock_link_more 3);
             Response (mock_page 301 1) mock_link_done ] 4 1 []).
  - discriminate.
  - intros i r Hi.
    do 4 (destruct i as [|i];
          [injection Hi as <-; split; vm_compute; reflexivity|]).
    discriminate Hi.
  - reflexivity.
Defined.

(* ===================================================================== *)
(** * Further properties of the aggregator                                *)
(* ===================================================================== *)

Lemma filter_all {A} (P : A → Prop) `{!∀ x, Decision (P x)} (l : list A) :
  Forall P l → filter P l = l.
Proof.
  induction 1 as [|x l Hx _ IH]; [done|]. by rewrite filter_cons_True, IH.
Qed.

Lemma first_occurrences_filter (P : jsstring → Prop)
    `{!∀ x, Decision (P x)} (l : list jsstring) :
  first_occurrences (filter P l) = filter P (first_occurrences l).
Proof.
  induction l as [|x l IH]; [done|]. cbn [first_occurrences].
  destruct (decide (P x)) as [Hx|Hx].
  - rewrite !filter_cons_True by done. cbn [first_occurrences].
    rewrite IH, !list_filter_filter. f_equal.
    apply list_filter_iff. intros y. tauto.
  - rewrite !filter_cons_False by done. rewrite IH.
    symmetry. apply list_filter_filter_l. by intros y Hy ->.
Qed.

Lemma first_occurrences_elem x l : x ∈ first_occurrences l ↔ x ∈ l.
Proof.
  induction l as [|y l IH]; [done|]. cbn [first_occurrences].
  rewrite !elem_of_cons, list_elem_of_filter, IH.
  destruct (decide (x = y)); tauto.
Qed.

Lemma first_occurrences_NoDup l : NoDup (first_occurrences l).
Proof.
  induction l as [|y l IH]; [constructor|]. cbn [first_occurrences].
  constructor; [|by apply NoDup_filter].
  rewrite list_elem_of_filter. by intros [? _].
Qed.

(** The keys of the grouping, in creation order, are the keys it had
    followed by the new languages in the order of their first item. *)
Lemma aggregate_keys g items g' :
  aggregate g items = inr g' →
  g'.*1 = g.*1 ++ first_occurrences
                    (filter (λ k, k ∉ g.*1) (language_key <$> items)).
Proof.
  revert g. induction items as [|it items IH]; intros g; cbn [aggregate].
  { intros [= <-]. by rewrite app_nil_r. }
  destruct (aggregate_item g it) as [e|g1] eqn:Hit; [done|].
  intros Hrest. pose proof (aggregate_item_inr _ _ _ Hit) as Hkey.
  destruct (aggregate_item_push g it Hkey) as (g1' & Hit' & _ & _ & _ & Hk).
  rewrite Hit in Hit'. injection Hit' as <-.
  rewrite (IH _ Hrest), Hk, fmap_cons.
  destruct (own_get g (language_key it)) as [b|] eqn:Hg.
  - rewrite filter_cons_False; [done|].
    intros Hno. apply own_get_None_keys in Hno. by rewrite Hg in Hno.
  - apply own_get_None_keys in Hg. rewrite filter_cons_True by done.
    cbn [first_occurrences]. rewrite <- app_assoc. cbn [app]. do 2 f_equal.
    rewrite <- first_occurrences_filter, list_filter_filter. f_equal.
    apply list_filter_iff. intros k.
    rewrite not_elem_of_app, list_elem_of_singleton. tauto.
Qed.

(** No own key of the grouping is ever an inherited name. *)
Lemma aggregate_item_keys_apart g it g' :
  Forall (λ k, k ∉ Object_prototype) g.*1 →
  aggregate_item g it = inr g' →
  Forall (λ k, k ∉ Object_prototype) g'.*1.
Proof.
  intros Hg Hit. pose proof (aggregate_item_inr _ _ _ Hit) as Hkey.
  destruct (aggregate_item_push g it Hkey) as (g1 & Hit' & _ & _ & _ & Hk).
  rewrite Hit in Hit'. injection Hit' as <-. rewrite Hk.
  destruct (own_get g (language_key it)) as [b|] eqn:Hown; [done|].
  apply Forall_app. split; [done|]. apply Forall_singleton.
  destruct Hkey as [[? [=]]|]; done.
Qed.

Lemma aggregate_throws g items :
  Forall (λ k, k ∉ Object_prototype) g.*1 →
  (∃ it, it ∈ items ∧ language_key it ∈ Object_prototype) →
  aggregate g items = inl push_error.
Proof.
  revert g. induction items as [|it items IH]; intros g Hg (bad & Hin & Hbad).
  { by apply elem_of_nil in Hin. }
  cbn [aggregate].
  destruct (decide (language_key it ∈ Object_prototype)) as [Hit|Hit].
  - rewrite aggregate_item_throws; [done| |done].
    apply own_get_None_keys. intros Hown.
    by apply (proj1 (Forall_forall _ _) Hg) in Hown.
  - destruct (aggregate_item_push g it) as (g1 & Hg1 & _); [by right|].
    rewrite Hg1. apply IH.
    + by eapply aggregate_item_keys_apart.
    + exists bad. split; [|done].
      apply elem_of_cons in Hin as [->|Hin]; done.
Qed.

(** ** X13 *)

(** X13: starting from the empty grouping, the aggregation throws exactly
    when some item's language is one of the names an object literal
    inherits; the error is always the [TypeError] of the missing [push];
    for every other list it returns a grouping. *)
Theorem aggregate_throws_iff (items : list item) :
  (aggregate [] items = inl push_error
   ↔ ∃ it, it ∈ items ∧ language_key it ∈ Object_prototype)
  ∧ (∀ e, aggregate [] items = inl e → e = push_error)
  ∧ ((∃ g, aggregate [] items = inr g)
     ↔ ∀ it, it ∈ items → language_key it ∉ Object_prototype).
Proof.
  assert ((∃ it, it ∈ items ∧ language_key it ∈ Object_prototype)
          ∨ ∀ it, it ∈ items → language_key it ∉ Object_prototype) as Hcases.
  { destruct (decide (Exists (λ it, language_key it ∈ Object_prototype) items))
      as [H|H].
    - left. by apply Exists_exists in H.
    - right. apply not_Exists_Forall in H; [|apply _].
      by apply Forall_forall. }
  destruct Hcases as [Hbad|Hgood].
  - pose proof (aggregate_throws [] items ltac:(constructor) Hbad) as Hthrow.
    split; [done|]. split; [by intros e; rewrite Hthrow; intros [= <-]|].
    split; [by rewrite Hthrow; intros [g [=]]|].
    intros Hall. destruct Hbad as (it & Hin & Hit). by destruct (Hall it Hin).
  - destruct (aggregate_total [] items Hgood) as [g Hg].
    split; [|split; [by rewrite Hg | split; [done | by exists g]]].
    rewrite Hg. split; [done|]. intros (it & Hin & Hit).
    by destruct (Hgood it Hin).
Qed.

(** ** X14 *)

(** X14: when the aggregation returns, the keys of the grouping, in the
    order in which they were created, are the languages of the items in
    the order of their first occurrence, each once; and no key is left
    with an empty bucket. *)
Theorem grouping_keys_by_first_item (items : list item) (g : grouping) :
  aggregate [] items = inr g →
  g.*1 = first_occurrences (language_key <$> items)
  ∧ NoDup g.*1
  ∧ ∀ k, k ∈ g.*1 → bucket g k ≠ [].
Proof.
  intros Hg. pose proof (aggregate_keys _ _ _ Hg) as Hkeys.
  cbn [fmap list_fmap app] in Hkeys.
  rewrite filter_all in Hkeys
    by (apply Forall_forall; intros k _; apply not_elem_of_nil).
  split; [done|]. rewrite Hkeys.
  split; [apply first_occurrences_NoDup|].
  intros k Hk.
  apply first_occurrences_elem, list_elem_of_fmap in Hk as (it & -> & Hit).
  destruct (aggregate_inr _ _ _ Hg) as (Hb & _). rewrite Hb. cbn [app].
  intros Hnil. apply fmap_nil_inv in Hnil.
  assert (it ∈ filter (λ i, language_key i = language_key it) items) as Hin
    by (by apply list_elem_of_filter).
  rewrite Hnil in Hin. by apply elem_of_nil in Hin.
Qed.

(** The theorem at four items: JavaScript, no language, JavaScript again
    and Python. *)
Lemma grouping_keys_by_first_item_witness :
  let items :=
    [ Item (js "a") None (js "https://github.com/octocat/a")
        (Some (js "JavaScript"));
      Item (js "b") None (js "https://github.com/octocat/b") None;
      Item (js "c") None (js "https://github.com/octocat/c")
        (Some (js "JavaScript"));
      Item (js "d") None (js "https://github.com/octocat/d")
        (Some (js "Python")) ] in
  ∃ g, aggregate [] items = inr g
    ∧ g.*1 = [js "JavaScript"; js "Others"; js "Python"].
Proof.
  intros items.
  destruct (aggregate [] items) as [e|g] eqn:Hg; [by vm_compute in Hg|].
  exists g. split; [done|].
  destruct (grouping_keys_by_first_item items g Hg) as (-> & _).
  vm_compute. reflexivity.
Defined.

Lemma insert_index_Permutation e l : insert_index e l ≡ₚ e :: l.
Proof.
  induction l as [|e' l IH]; [done|]. cbn [insert_index].
  destruct (e.1 <? e'.1)%N; [done|]. rewrite IH. apply Permutation_swap.
Qed.

Lemma sort_index_Permutation l : foldr insert_index [] l ≡ₚ l.
Proof.
  induction l as [|e l IH]; [done|]. cbn [foldr].
  by rewrite insert_index_Permutation, IH.
Qed.

Lemma indexed_keys (keys : list jsstring) :
  (omap (λ k, (λ n, (n, k)) <$> array_index k) keys).*2
  = filter (λ k, is_Some (array_index k)) keys.
Proof.
  induction keys as [|k keys IH]; [done|]. cbn [omap list_omap].
  destruct (array_index k) as [n|] eqn:E; cbn [fmap option_fmap option_map].
  - rewrite filter_cons_True by (by rewrite E). by rewrite fmap_cons, IH.
  - rewrite filter_cons_False by (rewrite E; by intros [? ?]). done.
Qed.

(** ** X15 *)

(** X15: the list of languages handed to the template names every key of
    the grouping exactly once; and unless a language name is the decimal
    of an array index, it lists them in the order in which the keys were
    created. *)
Theorem Object_keys_creation_order (g : grouping) :
  Object_keys g ≡ₚ g.*1
  ∧ (Forall (λ k, array_index k = None) g.*1 → Object_keys g = g.*1).
Proof.
  unfold Object_keys. split.
  - rewrite sort_index_Permutation, indexed_keys.
    rewrite <- (filter_app_complement (λ k, is_Some (array_index k)) g.*1) at 3.
    f_equiv. apply reflexive_eq, list_filter_iff. intros k.
    destruct (array_index k); [|done].
    split; [done | intros H; destruct H; by eexists].
  - intros Hall. rewrite (filter_all _ _ Hall).
    assert (omap (λ k, (λ n, (n, k)) <$> array_index k) g.*1 = []) as ->; [|done].
    induction Hall as [|k keys Hk _ IH]; [done|].
    cbn [omap list_omap]. by rewrite Hk.
Qed.

(** The theorem at a grouping with the keys [JavaScript] and [C]. *)
Lemma Object_keys_creation_order_witness :
  let g : grouping := [(js "JavaScript", []); (js "C", [])] in
  Object_keys g = [js "JavaScript"; js "C"].
Proof.
  intros g. apply (proj2 (Object_keys_creation_order g)).
  repeat constructor.
Defined.

(* ===================================================================== *)
(** * Further properties of the pipeline                                  *)
(* ===================================================================== *)

Lemma alias_absent o f :
  present o f = false →
  alias o (long_name f) (short_name f) = get o (short_name f)
  ∧ get o (short_name f) = VUndefined.
Proof.
  unfold present, alias, js_or, hasOwnProperty, get.
  destruct o as [| | | | |props|]; try done.
  intros [H1 H2]%orb_false_iff.
  apply bool_decide_eq_false_1 in H1, H2.
  destruct (props !! long_name f); [by destruct H1|].
  destruct (props !! short_name f); [by destruct H2|]. done.
Qed.

(** In a fresh module a configuration that sets only the user name is
    accepted and leaves only [options.username]. *)
Lemma username_only_validate o u :
  username_only o u →
  validate o ∅ = ({[ js "username" := VString u ]}, Returns None).
Proof.
  intros (Ho & Honly & Hu & Hne).
  assert (username_option ∈ recognized) as Hin by left.
  assert (present o username_option = true) as Hp.
  { destruct (present o username_option) eqn:Hp; [done|].
    apply alias_absent in Hp as [Ha Hg]. unfold username_option in Ha, Hg.
    cbn [long_name short_name] in Ha, Hg. by rewrite Hu, Hg in Ha. }
  assert ((validate o ∅).2 = Returns None) as Hok.
  { rewrite validate_object_result by done. f_equal.
    apply chain_passes. intros f Hf Hpf.
    destruct (decide (long_name f = js "username")) as [E|E].
    - rewrite (recognized_long_name_inj f username_option Hf Hin E).
      unfold username_option. cbn [long_name short_name type_test].
      by rewrite Hu.
    - by rewrite (Honly f Hf E) in Hpf. }
  destruct (validate o ∅) as [st' r] eqn:Hv. cbn [snd] in Hok. subst r.
  f_equal. apply map_eq. intros k.
  destruct (decide (k = js "username")) as [->|Hk].
  - pose proof (validated_field o ∅ st' username_option Ho Hv Hin) as H.
    rewrite Hp in H. destruct H as [H _]. unfold username_option in H.
    cbn [long_name short_name] in H. by rewrite H, Hu, lookup_singleton_eq.
  - rewrite lookup_singleton_ne by done.
    apply validate_returns in Hv; [|done].
    replace st' with (chain o recognized ∅).1 by (by rewrite Hv).
    rewrite chain_frame; [done|]. intros f Hf E. apply Honly; [done|].
    by rewrite E.
Qed.

(** What is left of a run once the checks on the options are passed. *)
Lemma username_only_run w fuel o u :
  username_only o u →
  module_exports w fuel o ∅
  = ({[ js "username" := VString u ]},
     let fetched := loop fuel (ghGot w) u o 1 [] in
     match fetched.2 with
     | Flashed stderr => Outcome fetched.1 None (Exited stderr 1)
     | Suspended => Outcome fetched.1 None Running
     | Listed responseBody =>
         match aggregate [] responseBody with
         | inl e => Outcome fetched.1 None (Rejected e)
         | inr stargazed =>
             match buildReadmeContent w
                     (Context (Object_keys stargazed) (VString u) stargazed)
             with
             | inl ended => Outcome fetched.1 None ended
             | inr readmeContent =>
                 match writeReadmeContent w readmeContent with
                 | inl ended => Outcome fetched.1 None ended
                 | inr text => Outcome fetched.1 (Some text) Returned
                 end
             end
         end
     end).
Proof.
  intros Hu. pose proof Hu as (_ & _ & _ & Hne).
  unfold module_exports. rewrite (username_only_validate o u Hu).
  unfold read. rewrite lookup_singleton_eq.
  rewrite !lookup_singleton_ne by (by vm_compute).
  cbn [default from_option id truthy negb andb to_string].
  rewrite bool_decide_eq_false_2 by done. cbn [negb]. cbn zeta.
  destruct (loop fuel (ghGot w) u o 1 []).2 as [items|stderr|];
    [|done|done].
  destruct (aggregate [] items) as [e|g]; [done|].
  destruct (buildReadmeContent w _) as [ended|content]; [done|].
  by destruct (writeReadmeContent w content).
Qed.

Lemma username_only_octocat :
  username_only (object_literal [("username", octocat)]) (js "octocat").
Proof.
  split; [done|]. split; [|by vm_compute].
  apply (proj1 (Forall_forall
    (λ f, long_name f ≠ js "username" →
          present (object_literal [("username", octocat)]) f = false)
    recognized)).
  unfold recognized. repeat constructor; intros Hne; by vm_compute.
Qed.

Lemma loop_listed_sent fuel ghGot username o page acc list :
  (loop fuel ghGot username o page acc).2 = Listed list →
  (loop fuel ghGot username o page acc).1 ≠ [].
Proof.
  destruct fuel as [|fuel]; [done|]. intros _.
  by destruct (loop_first_request ghGot username o fuel page acc) as [rest ->].
Qed.

(** ** X16 *)

(** X16: in a fresh module, a configuration that sets only the user name
    needs no credential: when the fetch returns a list, the aggregation a
    grouping, the template is read, rendered and the write succeeds, the
    run returns normally, README.md holds the unescaped rendering of the
    context made of the keys, the user name and the grouping, the
    requests are those of the loop, and only [options.username] is set. *)
Theorem username_only_run_writes_readme
    (w : world) (fuel : nat) (o : value) (u : jsstring)
    (items : list item) (g : grouping) (template text : jsstring) :
  username_only o u →
  (loop fuel (ghGot w) u o 1 []).2 = Listed items →
  aggregate [] items = inr g →
  readFile_template w = inr template →
  ejs_render w template (Context (Object_keys g) (VString u) g) = inr text →
  writeFile_README w (unescape w text) = None →
  module_exports w fuel o ∅
  = ({[ js "username" := VString u ]},
     Outcome (loop fuel (ghGot w) u o 1 []).1
       (Some (unescape w text)) Returned).
Proof.
  intros Hu Hloop Hagg Htemplate Hrender Hwrite.
  rewrite (username_only_run w fuel o u Hu). cbn zeta.
  rewrite Hloop, Hagg. unfold buildReadmeContent, getReadmeTemplate.
  rewrite Htemplate, Hrender. unfold writeReadmeContent. by rewrite Hwrite.
Qed.

(** The theorem at the mock endpoint and the mock world. *)
Lemma username_only_run_writes_readme_witness :
  ∃ sent text,
    module_exports (mock_world mock_ghGot) 10
      (object_literal [("username", octocat)]) ∅
    = ({[ js "username" := octocat ]}, Outcome sent (Some text) Returned)
    ∧ length sent = 4
    ∧ text = js "# Stars of octocat: JavaScript".
Proof.
  destruct (aggregate [] (mock_page 1 100 ++ mock_page 101 100
                          ++ mock_page 201 100 ++ mock_page 301 1))
    as [e|g] eqn:Hg; [by vm_compute in Hg|].
  eexists _, _. split.
  - apply (username_only_run_writes_readme (mock_world mock_ghGot) 10
             (object_literal [("username", octocat)]) (js "octocat")
             (mock_page 1 100 ++ mock_page 101 100 ++ mock_page 201 100
              ++ mock_page 301 1) g (js "# Stars of ")).
    + apply username_only_octocat.
    + vm_compute. reflexivity.
    + exact Hg.
    + reflexivity.
    + reflexivity.
    + reflexivity.
  - split; [vm_compute; reflexivity|].
    vm_compute in Hg. injection Hg as <-. vm_compute. reflexivity.
Defined.

(** ** X17 *)

(** X17: for such a configuration every later failure ends the run without
    README.md, after the requests of the fetch: a failed request and an
    unreadable template or a failed write end in [flashError] with exit
    status 1, an error thrown by the aggregation or by the template engine
    rejects the promise. *)
Theorem username_only_run_failures
    (w : world) (fuel : nat) (o : value) (u : jsstring) :
  username_only o u →
  let sent := (loop fuel (ghGot w) u o 1 []).1 in
  let out := (module_exports w fuel o ∅).2 in
  (∀ stderr,
     (loop fuel (ghGot w) u o 1 []).2 = Flashed stderr →
     out = Outcome sent None (Exited stderr 1))
  ∧ (∀ items e,
       (loop fuel (ghGot w) u o 1 []).2 = Listed items →
       aggregate [] items = inl e →
       out = Outcome sent None (Rejected e))
  ∧ (∀ items g,
       (loop fuel (ghGot w) u o 1 []).2 = Listed items →
       aggregate [] items = inr g →
       let ctx := Context (Object_keys g) (VString u) g in
       (∀ err, readFile_template w = inl err →
          out = Outcome sent None (flashError (error_to_string err)))
       ∧ (∀ template e,
            readFile_template w = inr template →
            ejs_render w template ctx = inl e →
            out = Outcome sent None (Rejected e))
       ∧ (∀ template text err,
            readFile_template w = inr template →
            ejs_render w template ctx = inr text →
            writeFile_README w (unescape w text) = Some err →
            out = Outcome sent None (flashError (error_to_string err)))).
Proof.
  intros Hu sent out. subst sent out.
  rewrite (username_only_run w fuel o u Hu). cbn [snd]. cbn zeta.
  split; [by intros stderr ->|]. split; [by intros items e -> ->|].
  intros items g -> ->. unfold buildReadmeContent, getReadmeTemplate.
  split; [by intros err ->|]. split; [by intros template e -> ->|].
  intros template text err -> ->. unfold writeReadmeContent. by intros ->.
Qed.

(** The theorem at the mock endpoint with an unreadable template: the four
    requests are sent before the run fails. *)
Lemma username_only_run_failures_witness :
  let w := mock_world_with mock_ghGot
             (inl (HostError (js "Error: ENOENT: no such file or directory")))
             None in
  ∃ sent,
    (module_exports w 10 (object_literal [("username", octocat)]) ∅).2
    = Outcome sent None
        (flashError (js "Error: ENOENT: no such file or directory"))
    ∧ length sent = 4.
Proof.
  intros w.
  destruct (aggregate [] (mock_page 1 100 ++ mock_page 101 100
                          ++ mock_page 201 100 ++ mock_page 301 1))
    as [e|g] eqn:Hg; [by vm_compute in Hg|].
  destruct (username_only_run_failures w 10
              (object_literal [("username", octocat)]) (js "octocat")
              username_only_octocat) as (_ & _ & Hlater).
  assert ((loop 10 (ghGot w) (js "octocat")
             (object_literal [("username", octocat)]) 1 []).2
          = Listed (mock_page 1 100 ++ mock_page 101 100
                    ++ mock_page 201 100 ++ mock_page 301 1)) as Hloop.
  { vm_compute. reflexivity. }
  destruct (Hlater _ g Hloop Hg) as (Htemplate & _).
  eexists. split.
  - exact (Htemplate
             (HostError (js "Error: ENOENT: no such file or directory"))
             eq_refl).
  - vm_compute. reflexivity.
Defined.

(** ** X18 *)

(** X18: a user with no starred repository: when the first page is empty
    and advertises no next page, the run sends that one request, renders
    the template with no language and an empty grouping, and writes the
    result. *)
Theorem no_stars_still_renders
    (w : world) (fuel : nat) (o : value) (u : jsstring)
    (link : option jsstring) (template text : jsstring) :
  username_only o u →
  ghGot w (starred_url u 1) o = Fulfilled (Response [] link) →
  has_next link = false →
  1 ≤ fuel →
  readFile_template w = inr template →
  ejs_render w template (Context [] (VString u) []) = inr text →
  writeFile_README w (unescape w text) = None →
  module_exports w fuel o ∅
  = ({[ js "username" := VString u ]},
     Outcome [starred_url u 1] (Some (unescape w text)) Returned).
Proof.
  intros Hu Hpage Hnext Hfuel Htemplate Hrender Hwrite.
  destruct fuel as [|fuel]; [lia|].
  rewrite (username_only_run w (S fuel) o u Hu). cbn zeta.
  rewrite (loop_last _ _ _ _ _ _ _ Hpage Hnext). cbn [fst snd body app aggregate].
  change (Object_keys []) with (@nil jsstring).
  unfold buildReadmeContent, getReadmeTemplate.
  rewrite Htemplate, Hrender. unfold writeReadmeContent. by rewrite Hwrite.
Qed.

(** The theorem at the endpoint of a user without stars. *)
Lemma no_stars_still_renders_witness :
  module_exports (mock_world empty_ghGot) 10
    (object_literal [("username", octocat)]) ∅
  = ({[ js "username" := octocat ]},
     Outcome [starred_url (js "octocat") 1] (Some (js "# Stars of octocat: "))
       Returned).
Proof.
  apply (no_stars_still_renders (mock_world empty_ghGot) 10
           (object_literal [("username", octocat)]) (js "octocat") None
           (js "# Stars of ") (js "# Stars of octocat: ")).
  - apply username_only_octocat.
  - reflexivity.
  - reflexivity.
  - lia.
  - reflexivity.
  - vm_compute. reflexivity.
  - reflexivity.
Defined.

(** After a validation without error a flag that was off in the module's
    options and does not resolve to [true] is off. *)
Lemma validated_flag_off o st st' f :
  isObject o = true → validate o st = (st', Returns None) → f ∈ recognized →
  type_test f = isBoolean →
  alias o (long_name f) (short_name f) ≠ VBool true →
  truthy (read st (long_name f)) = false →
  truthy (read st' (long_name f)) = false.
Proof.
  intros Ho Hv Hf Htest Halias Hst.
  pose proof (validated_field o st st' f Ho Hv Hf) as H.
  destruct (present o f).
  - destruct H as [H Hb]. unfold read. rewrite H. rewrite Htest in Hb.
    by apply isBoolean_not_true.
  - by rewrite (read_lookup st st' _ _ H).
Qed.

Lemma validate_passed_object o st :
  (validate o st).2 = Returns None → isObject o = true.
Proof.
  destruct (isObject o) eqn:Ho; [done|]. rewrite validate_not_object by done.
  by destruct (not_an_object o).
Qed.

(** ** X19 *)

(** X19: a configuration that passes validation without a truthy user
    name (none, or the empty string through [u]), and without help or
    version resolving to [true], ends in [flashError] with the message
    that the user name is required, exit status 1 and no request, when no
    user name, help or version is left in the module's options. *)
Theorem missing_username_is_fatal
    (w : world) (fuel : nat) (o : value) (st : options) :
  (validate o st).2 = Returns None →
  truthy (alias o (js "username") (js "u")) = false →
  alias o (js "help") (js "h") ≠ VBool true →
  alias o (js "version") (js "v") ≠ VBool true →
  truthy (read st (js "username")) = false →
  truthy (read st (js "help")) = false →
  truthy (read st (js "version")) = false →
  module_exports w fuel o st
  = ((validate o st).1,
     Outcome [] None (flashError (js "Error! username is a required field."))).
Proof.
  intros Hok Hu Hhelp Hversion Hst_u Hst_help Hst_version.
  pose proof (validate_passed_object o st Hok) as Ho.
  unfold module_exports.
  destruct (validate o st) as [st' r] eqn:Hv. cbn [fst snd] in *. subst r.
  assert (truthy (read st' (js "help")) = false) as ->.
  { exact (validated_flag_off o st st'
             (OptionSpec (js "help") (js "h") isBoolean
                (js "invalid option. Help option must be a boolean primitive."))
             Ho Hv ltac:(repeat constructor) eq_refl Hhelp Hst_help). }
  assert (truthy (read st' (js "version")) = false) as ->.
  { exact (validated_flag_off o st st'
             (OptionSpec (js "version") (js "v") isBoolean
                (js "invalid option. Version option must be a boolean primitive."))
             Ho Hv ltac:(repeat constructor) eq_refl Hversion Hst_version). }
  assert (truthy (read st' (js "username")) = false) as ->; [|done].
  validated_option username_option H. unfold username_option in H.
  cbn [long_name short_name] in H. destruct (present o _).
  - destruct H as [H _]. unfold read. by rewrite H.
  - by rewrite (read_lookup st st' _ _ H).
Qed.

(** The theorem at [{u: ""}], which the validator accepts. *)
Lemma missing_username_is_fatal_witness :
  (module_exports (mock_world mock_ghGot) 10
     (object_literal [("u", VString [])]) ∅).2
  = Outcome [] None (flashError (js "Error! username is a required field.")).
Proof.
  rewrite (missing_username_is_fatal (mock_world mock_ghGot) 10
             (object_literal [("u", VString [])]) ∅); [reflexivity|..];
    by vm_compute.
Defined.

(** ** X20 *)

(** X20: when the input passes validation and its help or its version flag
    resolves to [true], the exported function returns at once: no
    request, no README, no message, not even the check for a user
    name. *)
Theorem help_or_version_returns
    (w : world) (fuel : nat) (o : value) (st : options) :
  (validate o st).2 = Returns None →
  alias o (js "help") (js "h") = VBool true
  ∨ alias o (js "version") (js "v") = VBool true →
  module_exports w fuel o st = ((validate o st).1, Outcome [] None Returned).
Proof.
  intros Hok Hflag.
  pose proof (validate_passed_object o st Hok) as Ho.
  unfold module_exports.
  destruct (validate o st) as [st' r] eqn:Hv. cbn [fst snd] in *. subst r.
  assert (∀ f, f ∈ recognized →
            alias o (long_name f) (short_name f) = VBool true →
            truthy (read st' (long_name f)) = true) as Hon.
  { intros f Hf Ha. pose proof (validated_field o st st' f Ho Hv Hf) as H.
    destruct (present o f) eqn:Hp.
    - destruct H as [H _]. unfold read. by rewrite H, Ha.
    - apply alias_absent in Hp as [E1 E2]. by rewrite Ha, E2 in E1. }
  destruct Hflag as [Hh|Hv'].
  - assert (truthy (read st' (js "help")) = true) as ->; [|done].
    exact (Hon (OptionSpec (js "help") (js "h") isBoolean
      (js "invalid option. Help option must be a boolean primitive."))
      ltac:(repeat constructor) Hh).
  - assert (truthy (read st' (js "version")) = true) as ->.
    { exact (Hon (OptionSpec (js "version") (js "v") isBoolean
        (js "invalid option. Version option must be a boolean primitive."))
        ltac:(repeat constructor) Hv'). }
    by destruct (truthy (read st' (js "help"))).
Qed.

(** The theorem at [{v: true}]: no user name is asked for. *)
Lemma help_or_version_returns_witness :
  (module_exports (mock_world mock_ghGot) 10
     (object_literal [("v", VBool true)]) ∅).2
  = Outcome [] None Returned.
Proof.
  rewrite (help_or_version_returns (mock_world mock_ghGot) 10
             (object_literal [("v", VBool true)]) ∅); [reflexivity| |].
  - vm_compute. reflexivity.
  - right. vm_compute. reflexivity.
Defined.

(** ** X21 *)

(** X21: an object in which some present option resolves to a value of the
    wrong type never reaches the network: the run prints the [TypeError]
    of a recognized option and exits with status 1 without a request and
    without README.md, whatever the module's options held. *)
Theorem wrong_type_is_fatal
    (w : world) (fuel : nat) (o : value) (st : options) (f : option_spec) :
  isObject o = true →
  f ∈ recognized →
  present o f = true →
  type_test f (alias o (long_name f) (short_name f)) = false →
  ∃ g, g ∈ recognized
    ∧ module_exports w fuel o st
      = ((validate o st).1,
         Outcome [] None (flashError (js "TypeError: " ++ type_message g))).
Proof.
  intros Ho Hf Hp Ht.
  destruct (chain_fails o recognized st f Hf Hp Ht) as (g & Hg & Herr).
  exists g. split; [done|]. unfold module_exports.
  pose proof (validate_object_result o st Ho) as Hr. rewrite Herr in Hr.
  destruct (validate o st) as [st' r]. cbn [fst snd] in *. by subst r.
Qed.

(** The theorem at [{username: "octocat", token: 5}]. *)
Lemma wrong_type_is_fatal_witness :
  ∃ g, g ∈ recognized
    ∧ (module_exports (mock_world mock_ghGot) 10
         (object_literal [("username", octocat); ("token", VNumber (js "5"))])
         ∅).2
      = Outcome [] None (flashError (js "TypeError: " ++ type_message g)).
Proof.
  destruct (wrong_type_is_fatal (mock_world mock_ghGot) 10
              (object_literal [("username", octocat);
                               ("token", VNumber (js "5"))]) ∅
              (OptionSpec (js "token") (js "t") isString
                 (js "invalid option. Token must be a string primitive.")))
    as (g & Hg & Hrun).
  - reflexivity.
  - repeat constructor.
  - vm_compute. reflexivity.
  - vm_compute. reflexivity.
  - exists g. split; [exact Hg|]. by rewrite Hrun.
Defined.

(** ** X22 *)

(** X22: README.md is written only by a run that returns normally and has
    sent at least one request; a run that ends in [flashError] exits with
    status 1, and neither it nor a run whose promise rejects or that is
    still fetching has written README.md; a promise rejects either after
    the fetch has sent a request, or before any request with the error of
    a conversion to a string that threw. *)
Theorem run_outcome_invariants
    (w : world) (fuel : nat) (o : value) (st : options) :
  let out := (module_exports w fuel o st).2 in
  match readme out with
  | Some _ => finish out = Returned ∧ requests out ≠ []
  | None => True
  end
  ∧ match finish out with
    | Returned => True
    | Exited _ code => code = 1%Z ∧ readme out = None
    | Rejected e => readme out = None ∧ (requests out ≠ [] ∨ e = cannot_convert)
    | Running => readme out = None
    end.
Proof.
  intros out. subst out. unfold module_exports, flashError.
  destruct (validate o st) as [st' [[e|]|e]] eqn:Hv; [by cbn| |].
  2: { apply validate_throws in Hv as (_ & _ & ->). cbn. by auto. }
  destruct (truthy (read st' (js "help"))); [by cbn|].
  destruct (truthy (read st' (js "version"))); [by cbn|].
  destruct (negb _); [by cbn|].
  destruct (_ && _); [by cbn|].
  destruct (to_string (read st' (js "username"))) as [user|];
    [|cbn; by auto].
  pose proof (loop_listed_sent fuel (ghGot w) user o 1 []) as Hsent.
  destruct (loop fuel (ghGot w) user o 1 [])
    as [sent [items|stderr|]]; cbn [fst snd] in *; [|by cbn|by cbn].
  specialize (Hsent items eq_refl).
  destruct (aggregate [] items) as [e|g]; [cbn; by auto|].
  unfold buildReadmeContent, getReadmeTemplate, flashError.
  destruct (readFile_template w) as [err|template]; [by cbn|].
  destruct (ejs_render w template _) as [e|text]; [cbn; by auto|].
  unfold writeReadmeContent, flashError.
  destruct (writeFile_README w _) as [err|]; by cbn.
Qed.

Lemma loop_ext fuel ghGot username o1 o2 page acc :
  (∀ url, ghGot url o1 = ghGot url o2) →
  loop fuel ghGot username o1 page acc = loop fuel ghGot username o2 page acc.
Proof.
  intros H. revert page acc.
  induction fuel as [|fuel IH]; intros page acc; [done|].
  rewrite !loop_S, H. destruct (ghGot _ o2) as [r|e]; [|done].
  by rewrite IH.
Qed.

(** After two validations without error from the same options, an option
    that both inputs resolve alike is read alike. *)
Lemma validated_read_agree (props1 props2 : gmap jsstring value) st st1 st2 f :
  validate (VObject props1) st = (st1, Returns None) →
  validate (VObject props2) st = (st2, Returns None) →
  f ∈ recognized →
  props1 !! long_name f = props2 !! long_name f →
  props1 !! short_name f = props2 !! short_name f →
  read st1 (long_name f) = read st2 (long_name f).
Proof.
  intros Hv1 Hv2 Hf Hl Hs.
  pose proof (validated_field (VObject props1) st st1 f eq_refl Hv1 Hf) as H1.
  pose proof (validated_field (VObject props2) st st2 f eq_refl Hv2 Hf) as H2.
  destruct (same_lookups_same_option props1 props2 f Hl Hs) as [Hp Ha].
  rewrite Hp, Ha in H1. unfold read.
  destruct (present (VObject props2) f).
  - destruct H1 as [-> _], H2 as [-> _]. done.
  - by rewrite H1, H2.
Qed.

(** ** X23 *)

(** X23: the sort flag and the commit message are validated and stored
    but never used: changing one of the keys [sort], [s], [message] or
    [m] of an input, both inputs passing validation and the endpoint
    answering both alike, changes nothing in the outcome of the run. *)
Theorem sort_and_message_are_unused
    (w : world) (fuel : nat) (props : gmap jsstring value)
    (k : jsstring) (v : value) (st : options) :
  k ∈ [js "sort"; js "s"; js "message"; js "m"] →
  (validate (VObject props) st).2 = Returns None →
  (validate (VObject (<[k := v]> props)) st).2 = Returns None →
  (∀ url, ghGot w url (VObject (<[k := v]> props))
          = ghGot w url (VObject props)) →
  (module_exports w fuel (VObject (<[k := v]> props)) st).2
  = (module_exports w fuel (VObject props) st).2.
Proof.
  intros Hk Hok1 Hok2 Hgh. unfold module_exports.
  destruct (validate (VObject props) st) as [st1 r1] eqn:Hv1.
  destruct (validate (VObject (<[k := v]> props)) st) as [st2 r2] eqn:Hv2.
  cbn [snd] in Hok1, Hok2. subst r1 r2.
  assert (∀ f, f ∈ recognized →
            long_name f ∈ [js "username"; js "help"; js "version";
                           js "token"; js "repo"] →
            read st2 (long_name f) = read st1 (long_name f)) as Hread.
  { intros f Hf Hlong.
    assert (long_name f ≠ k ∧ short_name f ≠ k) as [Hl Hs].
    { revert Hlong. revert f Hf.
      apply (proj1 (Forall_forall
        (λ f, long_name f ∈ [js "username"; js "help"; js "version";
                             js "token"; js "repo"] →
              long_name f ≠ k ∧ short_name f ≠ k) recognized)).
      repeat (apply elem_of_cons in Hk as [->|Hk]);
        [..|by apply elem_of_nil in Hk];
        unfold recognized;
        repeat (apply List.Forall_cons;
                [ intros Hlong;
                  first [ split; intros E; by vm_compute in E
                        | exfalso; revert Hlong; by apply not_elem_of_decide ]
                | ]);
        apply List.Forall_nil. }
    apply (validated_read_agree _ _ st st2 st1 f Hv2 Hv1 Hf);
      by rewrite lookup_insert_ne. }
  assert (read st2 (js "help") = read st1 (js "help")) as ->.
  { exact (Hread (OptionSpec (js "help") (js "h") isBoolean
      (js "invalid option. Help option must be a boolean primitive."))
      ltac:(repeat constructor) ltac:(repeat constructor)). }
  assert (read st2 (js "version") = read st1 (js "version")) as ->.
  { exact (Hread (OptionSpec (js "version") (js "v") isBoolean
      (js "invalid option. Version option must be a boolean primitive."))
      ltac:(repeat constructor) ltac:(repeat constructor)). }
  assert (read st2 (js "username") = read st1 (js "username")) as ->.
  { exact (Hread username_option
      ltac:(repeat constructor) ltac:(repeat constructor)). }
  assert (read st2 (js "token") = read st1 (js "token")) as ->.
  { exact (Hread (OptionSpec (js "token") (js "t") isString
      (js "invalid option. Token must be a string primitive."))
      ltac:(repeat constructor) ltac:(repeat constructor)). }
  assert (read st2 (js "repo") = read st1 (js "repo")) as ->.
  { exact (Hread (OptionSpec (js "repo") (js "r") isString
      (js "invalid option. Repo name must be a string primitive."))
      ltac:(repeat constructor) ltac:(repeat constructor)). }
  destruct (to_string (read st1 (js "username"))) as [user|];
    [|repeat case_match; done].
  rewrite (loop_ext fuel (ghGot w) _ _ (VObject props) 1 [] Hgh).
  repeat case_match; done.
Qed.

(** The theorem at [{username: "octocat"}] with [sort: true] added. *)
Lemma sort_and_message_are_unused_witness :
  let props : gmap jsstring value := {[ js "username" := octocat ]} in
  (module_exports (mock_world mock_ghGot) 10
     (VObject (<[js "sort" := VBool true]> props)) ∅).2
  = (module_exports (mock_world mock_ghGot) 10 (VObject props) ∅).2.
Proof.
  intros props. apply sort_and_message_are_unused.
  - left.
  - vm_compute. reflexivity.
  - vm_compute. reflexivity.
  - intros url. reflexivity.
Defined.

(** The partition at the three full pages and the last page of the mock
    endpoint, whose items all carry the language JavaScript: 301 rows, in
    fetch order. *)
Lemma aggregate_partition_witness :
  let items := mock_page 1 100 ++ mock_page 101 100 ++ mock_page 201 100
               ++ mock_page 301 1 in
  ∃ g, aggregate [] items = inr g
    ∧ total_rows g = 301
    ∧ NoDup g.*1
    ∧ ∀ k, bucket g k = row <$> filter (λ i, language_key i = k) items.
Proof.
  intros items.
  destruct (aggregate_partition items) as (g & Hg & Htotal & Hkeys & Hrows).
  - apply Forall_forall. subst items. unfold mock_page.
    rewrite <- !fmap_app. apply Forall_fmap, Forall_forall. intros n _.
    apply not_elem_of_decide. vm_compute. reflexivity.
  - exists g. split; [exact Hg|]. split; [|split; [exact Hkeys | exact Hrows]].
    rewrite Htotal. vm_compute. reflexivity.
Defined.
